(** * jsonfix: a shallow embedding of [jsonfix.py] and its properties

    The development follows the Python module top-down: text helpers that
    give Python's string operations a meaning on Rocq strings, the
    [split_at] helper and the trimmer, the validity oracle ([json.loads]
    used as accept/reject), the [Fixer] object with its attributes, the
    scanner, the padder and [fix].

    A Python [str] is modelled by [string]; one [ascii] is one character
    (code points below 256).  Integers are [Z], so that the sentinel
    position [-1] and Python's negative indices keep their meaning. *)

From Stdlib Require Import String Ascii List ZArith Lia Bool Arith Sorted.
Import ListNotations.

Local Open Scope string_scope.
Local Open Scope Z_scope.

(** ** Characters that cannot be written inside a Rocq string literal *)

Definition dquote : ascii := "034"%char.
Definition backslash : ascii := "092"%char.
Definition TAB : ascii := "009"%char.
Definition LF : ascii := "010"%char.
Definition CR : ascii := "013"%char.

(** [py] turns every apostrophe of its argument into a double quote, so
    that a JSON text can be written legibly: [py "{'a':1}"] is the
    seven-character text that starts with an opening brace and a double
    quote.  No text of this development contains an apostrophe of its
    own. *)
Fixpoint py (s : string) : string :=
  match s with
  | EmptyString => EmptyString
  | String c r => String (if Ascii.eqb c "'"%char then dquote else c) (py r)
  end.

(** ** Python string operations *)

Module PyStr.

Definition len (s : string) : Z := Z.of_nat (String.length s).

(** [s[:n]] and [s[n:]] for a natural number [n]. *)
Fixpoint take (n : nat) (s : string) : string :=
  match n, s with
  | O, _ => EmptyString
  | S _, EmptyString => EmptyString
  | S n', String c r => String c (take n' r)
  end.

Fixpoint drop (n : nat) (s : string) : string :=
  match n, s with
  | O, _ => s
  | S _, EmptyString => EmptyString
  | S n', String _ r => drop n' r
  end.

(** Python normalises a slice bound: a negative bound counts from the
    end, and the result is clipped to [0 .. len s]. *)
Definition bound (i : Z) (s : string) : nat :=
  let i' := if i <? 0 then i + len s else i in
  Z.to_nat (Z.min (Z.max i' 0) (len s)).

(** [s[:i]] *)
Definition slice_to (i : Z) (s : string) : string := take (bound i s) s.

(** [s[i:]] *)
Definition slice_from (i : Z) (s : string) : string := drop (bound i s) s.

(** [s[i]]: [None] stands for Python's [IndexError]. *)
Definition index (i : Z) (s : string) : option ascii :=
  let i' := if i <? 0 then i + len s else i in
  if (0 <=? i') && (i' <? len s) then String.get (Z.to_nat i') s else None.

(** [s.startswith(p)] *)
Definition startswith (s p : string) : bool := String.prefix p s.

(** [s.endswith(c)] for a one-character [c]. *)
Definition endswith_char (s : string) (c : ascii) : bool :=
  match index (-1) s with
  | Some a => Ascii.eqb a c
  | None => false
  end.

(** [s.rstrip(c)] for a one-character [c]. *)
Fixpoint rstrip (c : ascii) (s : string) : string :=
  match s with
  | EmptyString => EmptyString
  | String a r =>
      match rstrip c r with
      | EmptyString => if Ascii.eqb a c then EmptyString else String a EmptyString
      | r' => String a r'
      end
  end.

(** [c in chars] for a character [c] and a string used as a set. *)
Fixpoint mem (c : ascii) (chars : string) : bool :=
  match chars with
  | EmptyString => false
  | String a r => Ascii.eqb c a || mem c r
  end.

Definition of_char (c : ascii) : string := String c EmptyString.

End PyStr.

(** ** Module-level definitions of [jsonfix.py] *)

(** [whitespace = {' ', '\t', '\r', '\n'}] *)
Definition whitespace : list ascii := [" "%char; TAB; CR; LF].

Definition in_whitespace (c : ascii) : bool :=
  existsb (Ascii.eqb c) whitespace.

(** [split_at(predicate, l, from_right=False)]: the indices of [l] are
    visited in increasing order (decreasing when [from_right]), and [l] is
    cut at the first visited index whose character satisfies the
    predicate. *)
Definition split_at (predicate : ascii -> bool) (l : string)
    (from_right : bool) : string * string :=
  let r := seq 0 (String.length l) in
  let r := if from_right then rev r else r in
  let hit (i : nat) :=
    match String.get i l with
    | Some c => predicate c
    | None => false
    end in
  match find hit r with
  | Some i => (PyStr.slice_to (Z.of_nat i) l, PyStr.slice_from (Z.of_nat i) l)
  | None => (l, EmptyString)
  end.

(** [Fixer._trim] *)
Definition _trim (s : string) : string * string * string :=
  let '(leading, body_and_trailing) :=
    split_at (fun c => negb (in_whitespace c)) s false in
  let '(body, trailing) :=
    split_at (fun c => in_whitespace c) body_and_trailing true in
  (leading, body, trailing).

(** ** Regular expressions

    The two patterns of [jsonfix.py] are matched with [re.match], which
    anchors the match at the start of the text; both patterns end in [$].
    Only the existence of a match (and, for the literal pattern, the text
    of its single group) is used, so the patterns are given their language
    semantics, decided with derivatives. *)

Module Regex.

Inductive regex : Type :=
| Void                               (* no text at all *)
| Eps                                (* the empty text *)
| Class (p : ascii -> bool)          (* one character of a class *)
| Cat (r1 r2 : regex)
| Alt (r1 r2 : regex)
| Star (r : regex).

Definition Chr (c : ascii) : regex := Class (Ascii.eqb c).
Definition Not (c : ascii) : regex := Class (fun a => negb (Ascii.eqb a c)).
Definition Opt (r : regex) : regex := Alt r Eps.
Definition Plus (r : regex) : regex := Cat r (Star r).

Fixpoint nullable (r : regex) : bool :=
  match r with
  | Void => false
  | Eps => true
  | Class _ => false
  | Cat r1 r2 => nullable r1 && nullable r2
  | Alt r1 r2 => nullable r1 || nullable r2
  | Star _ => true
  end.

Definition cat (r1 r2 : regex) : regex :=
  match r1, r2 with
  | Void, _ => Void
  | _, Void => Void
  | Eps, _ => r2
  | _, _ => Cat r1 r2
  end.

Definition alt (r1 r2 : regex) : regex :=
  match r1, r2 with
  | Void, _ => r2
  | _, Void => r1
  | _, _ => Alt r1 r2
  end.

Fixpoint deriv (c : ascii) (r : regex) : regex :=
  match r with
  | Void => Void
  | Eps => Void
  | Class p => if p c then Eps else Void
  | Cat r1 r2 =>
      if nullable r1 then alt (cat (deriv c r1) r2) (deriv c r2)
      else cat (deriv c r1) r2
  | Alt r1 r2 => alt (deriv c r1) (deriv c r2)
  | Star r1 => cat (deriv c r1) (Star r1)
  end.

(** The whole of [s] belongs to the language of [r]. *)
Fixpoint fullmatch (r : regex) (s : string) : bool :=
  match s with
  | EmptyString => nullable r
  | String c s' => fullmatch (deriv c r) s'
  end.

(** [s] without its last character, when that character is a newline. *)
Fixpoint chop_newline (s : string) : option string :=
  match s with
  | EmptyString => None
  | String c EmptyString => if Ascii.eqb c LF then Some EmptyString else None
  | String c r =>
      match chop_newline r with
      | Some r' => Some (String c r')
      | None => None
      end
  end.

(** [re.match(r + '$', s)]: without the MULTILINE flag [$] holds at the
    end of the text and just before a newline that ends the text.  The
    result is the matched text. *)
Definition match_dollar (r : regex) (s : string) : option string :=
  if fullmatch r s then Some s
  else match chop_newline s with
       | Some w => if fullmatch r w then Some w else None
       | None => None
       end.

(** [\s] on a [str] pattern: the Unicode white space below 256. *)
Definition space_class (c : ascii) : bool :=
  let n := nat_of_ascii c in
  ((9 <=? n) && (n <=? 13) || (28 <=? n) && (n <=? 32)
   || (n =? 133) || (n =? 160))%nat.

Definition ws : regex := Star (Class space_class).

End Regex.

Import Regex.

(** [(tr?u?e?|fa?l?s?e|nu?l?l?)] : the group of the literal pattern. *)
Definition literal_pattern : regex :=
  let c (x : string) := match x with String a _ => Chr a | _ => Void end in
  Alt (Cat (c "t") (Cat (Opt (c "r")) (Cat (Opt (c "u")) (Opt (c "e")))))
 (Alt (Cat (c "f") (Cat (Opt (c "a")) (Cat (Opt (c "l")) (Cat (Opt (c "s")) (c "e")))))
      (Cat (c "n") (Cat (Opt (c "u")) (Cat (Opt (c "l")) (Opt (c "l")))))).

(** The well-formed object contents: one or more repetitions of
    [\s* Q [^Q]+ Q \s* : \s* [^,]+ ,?] where [Q] is the double quote. *)
Definition object_pattern : regex :=
  Plus (Cat ws (Cat (Chr dquote) (Cat (Plus (Not dquote)) (Cat (Chr dquote)
       (Cat ws (Cat (Chr ":"%char) (Cat ws (Cat (Plus (Not ","%char))
       (Opt (Chr ","%char)))))))))).

(** ** The validity oracle

    [Fixer._is_valid_json] calls [json.loads] of Python's standard library
    and keeps only whether it raised [JSONDecodeError].  [Json] follows the
    library's decoder ([decode], [scan_once], [JSONObject], [JSONArray],
    [scanstring], the number pattern) as a recogniser: a result is the
    text that remains after the value.  The recursion is on a fuel that
    [loads] sets from the length of the text; [OutOfFuel] is kept apart
    from [Reject] so that it can be shown never to happen. *)

Module Json.

Inductive scan : Type :=
| Accept (rest : string)
| Reject
| OutOfFuel.

Definition is_ws (c : ascii) : bool := PyStr.mem c (String " " (String TAB (String LF (String CR EmptyString)))).

Definition is_digit (c : ascii) : bool :=
  ((48 <=? nat_of_ascii c) && (nat_of_ascii c <=? 57))%nat.

Definition is_hex (c : ascii) : bool :=
  is_digit c || PyStr.mem c "abcdefABCDEF".

Fixpoint skip_ws (s : string) : string :=
  match s with
  | String c r => if is_ws c then skip_ws r else s
  | EmptyString => s
  end.

Fixpoint skip_digits (s : string) : string :=
  match s with
  | String c r => if is_digit c then skip_digits r else s
  | EmptyString => s
  end.

(** One or more digits. *)
Definition digits1 (s : string) : option string :=
  match s with
  | String c r => if is_digit c then Some (skip_digits r) else None
  | EmptyString => None
  end.

(** An optional minus sign, then [0] or a non-zero digit and digits. *)
Definition number_int (s : string) : option string :=
  let s' := match s with
            | String c r => if Ascii.eqb c "-" then r else s
            | EmptyString => s
            end in
  match s' with
  | String c r =>
      if Ascii.eqb c "0" then Some r
      else if is_digit c then Some (skip_digits r)
      else None
  | EmptyString => None
  end.

(** [(\.\d+)?] *)
Definition number_frac (s : string) : string :=
  match s with
  | String c r =>
      if Ascii.eqb c "." then
        match digits1 r with Some r' => r' | None => s end
      else s
  | EmptyString => s
  end.

(** [([eE][-+]?\d+)?] *)
Definition number_exp (s : string) : string :=
  match s with
  | String c r =>
      if Ascii.eqb c "e" || Ascii.eqb c "E" then
        let r1 := match r with
                  | String d r' =>
                      if Ascii.eqb d "-" || Ascii.eqb d "+" then r' else r
                  | EmptyString => r
                  end in
        match digits1 r1 with Some r' => r' | None => s end
      else s
  | EmptyString => s
  end.

(** [NUMBER_RE.match]: the text after the longest number, if any. *)
Definition match_number (s : string) : option string :=
  match number_int s with
  | Some r => Some (number_exp (number_frac r))
  | None => None
  end.

(** [scanstring], strict: [s] starts after the opening quote. *)
Fixpoint scanstring (s : string) : option string :=
  match s with
  | EmptyString => None
  | String c r =>
      if Ascii.eqb c dquote then Some r
      else if Ascii.eqb c backslash then
        match r with
        | EmptyString => None
        | String e r1 =>
            if Ascii.eqb e "u" then
              match r1 with
              | String h1 (String h2 (String h3 (String h4 r2))) =>
                  if is_hex h1 && is_hex h2 && is_hex h3 && is_hex h4
                  then scanstring r2 else None
              | _ => None
              end
            else if Ascii.eqb e dquote || Ascii.eqb e backslash
                    || PyStr.mem e "/bfnrt"
            then scanstring r1
            else None
        end
      else if (nat_of_ascii c <? 32)%nat then None
      else scanstring r
  end.

(** A constant [word] at the start of [s]. *)
Definition constant (word s : string) : scan :=
  if PyStr.startswith s word
  then Accept (PyStr.drop (String.length word) s)
  else Reject.

(** What [scan_once] does when the text starts with neither a quote, a
    brace nor a bracket. *)
Definition scan_atom (c : ascii) (s : string) : scan :=
  if Ascii.eqb c "n" && PyStr.startswith s "null" then constant "null" s
  else if Ascii.eqb c "t" && PyStr.startswith s "true" then constant "true" s
  else if Ascii.eqb c "f" && PyStr.startswith s "false" then constant "false" s
  else match match_number s with
       | Some r => Accept r
       | None =>
           if Ascii.eqb c "N" then constant "NaN" s
           else if Ascii.eqb c "I" then constant "Infinity" s
           else if Ascii.eqb c "-" then constant "-Infinity" s
           else Reject
       end.

(** [scan_once], with the loops of [JSONObject] ([members]: the text
    starts after the opening quote of a key) and of [JSONArray]
    ([elements]: the text starts at a value). *)
Fixpoint scan_once (fuel : nat) (s : string) {struct fuel} : scan :=
  match fuel with
  | O => OutOfFuel
  | S fuel' =>
      match s with
      | EmptyString => Reject
      | String c r =>
          if Ascii.eqb c dquote then
            match scanstring r with Some r' => Accept r' | None => Reject end
          else if Ascii.eqb c "{" then
            match skip_ws r with
            | String d r' =>
                if Ascii.eqb d "}" then Accept r'
                else if Ascii.eqb d dquote then members fuel' r'
                else Reject
            | EmptyString => Reject
            end
          else if Ascii.eqb c "[" then
            match skip_ws r with
            | String d r' =>
                if Ascii.eqb d "]" then Accept r'
                else elements fuel' (String d r')
            | EmptyString => elements fuel' EmptyString
            end
          else scan_atom c s
      end
  end

with members (fuel : nat) (s : string) {struct fuel} : scan :=
  match fuel with
  | O => OutOfFuel
  | S fuel' =>
      match scanstring s with
      | None => Reject
      | Some r =>
          match skip_ws r with
          | String c r1 =>
              if Ascii.eqb c ":" then
                match scan_once fuel' (skip_ws r1) with
                | Accept r2 =>
                    match skip_ws r2 with
                    | String d r3 =>
                        if Ascii.eqb d "}" then Accept r3
                        else if Ascii.eqb d "," then
                          match skip_ws r3 with
                          | String q r4 =>
                              if Ascii.eqb q dquote then members fuel' r4
                              else Reject
                          | EmptyString => Reject
                          end
                        else Reject
                    | EmptyString => Reject
                    end
                | other => other
                end
              else Reject
          | EmptyString => Reject
          end
      end
  end

with elements (fuel : nat) (s : string) {struct fuel} : scan :=
  match fuel with
  | O => OutOfFuel
  | S fuel' =>
      match scan_once fuel' s with
      | Accept r =>
          match skip_ws r with
          | String d r1 =>
              if Ascii.eqb d "]" then Accept r1
              else if Ascii.eqb d "," then elements fuel' (skip_ws r1)
              else Reject
          | EmptyString => Reject
          end
      | other => other
      end
  end.

(** [JSONDecoder.decode]: white space, one value, white space, end. *)
Definition loads (s : string) : scan :=
  match scan_once (2 * String.length s + 2) (skip_ws s) with
  | Accept r =>
      match skip_ws r with
      | EmptyString => Accept EmptyString
      | _ => Reject
      end
  | other => other
  end.

End Json.

(** [Fixer._is_valid_json].  The method catches [JSONDecodeError] only;
    the other exceptions of [json.loads] (the recursion limit on very
    deep nesting, the digit limit of recent interpreters on very long
    integers) are outside this model, which knows acceptance and
    rejection. *)
Definition _is_valid_json (json_string : string) : bool :=
  match Json.loads json_string with
  | Json.Accept _ => true
  | _ => false
  end.

(** ** The token stack: an insertion-ordered dictionary

    [OrderedDict] keyed by the position of the token in the body.  The
    entries are kept in insertion order, oldest first. *)

Module OrderedDict.

Definition t : Type := list (Z * ascii).

Definition empty : t := [].

(** [d[k] = v]: an existing key keeps its place, a new key goes last. *)
Fixpoint set (k : Z) (v : ascii) (d : t) : t :=
  match d with
  | [] => [(k, v)]
  | (k', v') :: d' => if k' =? k then (k, v) :: d' else (k', v') :: set k v d'
  end.

(** [d[list(d.keys())[-1]]] *)
Definition last_value (d : t) : option ascii :=
  match rev d with
  | [] => None
  | (_, v) :: _ => Some v
  end.

(** [d.popitem()]: the last entry and the dictionary without it;
    [None] stands for the [KeyError] of an empty dictionary. *)
Definition popitem (d : t) : option ((Z * ascii) * t) :=
  match rev d with
  | [] => None
  | kv :: d' => Some (kv, rev d')
  end.

(** The entries from the newest to the oldest: the first one whose
    token is [token] is deleted, and the search stops there. *)
Fixpoint del_first (token : ascii) (newest_first : t) : t :=
  match newest_first with
  | [] => []
  | (k, v) :: d' =>
      if Ascii.eqb v token then d' else (k, v) :: del_first token d'
  end.

Definition del_last_of (token : ascii) (d : t) : t :=
  rev (del_first token (rev d)).

(** [reversed(d.items())] *)
Definition reversed_items (d : t) : list (Z * ascii) := rev d.

End OrderedDict.

(** ** Exceptions and the [Fixer] object *)

Inductive exn : Type :=
| RuntimeError (msg : string)
| IndexError
| KeyError.

Inductive outcome (A : Type) : Type :=
| Return (a : A)
| Raise (e : exn).

Arguments Return {A} a.
Arguments Raise {A} e.

(** The attributes a method can reach through [self].  [_token_stack] is
    declared on the class with one [OrderedDict] object that every
    instance shares until the instance is given a dictionary of its own
    ([_reset] does that); [class_token_stack] is that shared object and
    [own_token_stack] the instance attribute, [None] while it is unset.
    The other three attributes hold immutable values, so what an instance
    reads is its own value or the class default ([False], [-1], [-1]). *)
Record Fixer : Type := mkFixer {
  class_token_stack : OrderedDict.t;
  own_token_stack : option OrderedDict.t;
  _is_in_string : bool;
  _last_object_position : Z;
  _last_array_position : Z
}.

(** A new instance, [Fixer()], in a process whose class-level dictionary
    is [shared]. *)
Definition new_Fixer (shared : OrderedDict.t) : Fixer :=
  mkFixer shared None false (-1) (-1).

(** [self._token_stack] as an expression. *)
Definition _token_stack (self : Fixer) : OrderedDict.t :=
  match own_token_stack self with
  | Some d => d
  | None => class_token_stack self
  end.

(** [_complementary_pairs.get(c)] *)
Definition _complementary_pairs (c : ascii) : option ascii :=
  if Ascii.eqb c "{" then Some "}"%char
  else if Ascii.eqb c "[" then Some "]"%char
  else if Ascii.eqb c dquote then Some dquote
  else None.

Definition _missing_value : string := "null".

(** *** Methods run in a state-and-exception monad: the object survives
    an exception with the changes made so far. *)

Definition M (A : Type) : Type := Fixer -> outcome A * Fixer.

Definition ret {A} (a : A) : M A := fun self => (Return a, self).

Definition raise {A} (e : exn) : M A := fun self => (Raise e, self).

Definition bind {A B} (m : M A) (k : A -> M B) : M B :=
  fun self =>
    match m self with
    | (Return a, self') => k a self'
    | (Raise e, self') => (Raise e, self')
    end.

Declare Scope fixer_scope.
Delimit Scope fixer_scope with fixer.
Notation "x <- m ;; k" := (bind m (fun x => k))
  (at level 61, m at next level, right associativity) : fixer_scope.
Notation "m ;;; k" := (bind m (fun _ => k))
  (at level 61, right associativity) : fixer_scope.
Local Open Scope fixer_scope.

(** Reading an attribute. *)
Definition read {A} (f : Fixer -> A) : M A := fun self => (Return (f self), self).

(** Mutating the dictionary that [self._token_stack] denotes, in place. *)
Definition mutate_token_stack (f : OrderedDict.t -> OrderedDict.t) : M unit :=
  fun self =>
    match own_token_stack self with
    | Some d =>
        (Return tt, mkFixer (class_token_stack self) (Some (f d))
                      (_is_in_string self) (_last_object_position self)
                      (_last_array_position self))
    | None =>
        (Return tt, mkFixer (f (class_token_stack self)) None
                      (_is_in_string self) (_last_object_position self)
                      (_last_array_position self))
    end.

(** Assignments to attributes of the instance. *)
Definition assign_token_stack (d : OrderedDict.t) : M unit :=
  fun self => (Return tt, mkFixer (class_token_stack self) (Some d)
                 (_is_in_string self) (_last_object_position self)
                 (_last_array_position self)).

Definition assign_is_in_string (b : bool) : M unit :=
  fun self => (Return tt, mkFixer (class_token_stack self) (own_token_stack self)
                 b (_last_object_position self) (_last_array_position self)).

Definition assign_last_object_position (i : Z) : M unit :=
  fun self => (Return tt, mkFixer (class_token_stack self) (own_token_stack self)
                 (_is_in_string self) i (_last_array_position self)).

Definition assign_last_array_position (i : Z) : M unit :=
  fun self => (Return tt, mkFixer (class_token_stack self) (own_token_stack self)
                 (_is_in_string self) (_last_object_position self) i).

(** [s[i]] as a statement: out of range raises [IndexError]. *)
Definition getitem (s : string) (i : Z) : M ascii :=
  match PyStr.index i s with
  | Some c => ret c
  | None => raise IndexError
  end.

(** [for i in range(n): body(i)] *)
Fixpoint for_each (l : list nat) (body : Z -> M unit) : M unit :=
  match l with
  | [] => ret tt
  | i :: l' => body (Z.of_nat i) ;;; for_each l' body
  end.

Definition for_range (n : nat) (body : Z -> M unit) : M unit :=
  for_each (seq 0 n) body.

(** [while cond(): body()], for at most [fuel] rounds. *)
Fixpoint while_ (fuel : nat) (cond : M bool) (body : M unit) : M unit :=
  match fuel with
  | O => ret tt
  | S fuel' =>
      c <- cond ;;
      if c then body ;;; while_ fuel' cond body else ret tt
  end.

Definition opt_is (o : option ascii) (c : ascii) : bool :=
  match o with
  | Some a => Ascii.eqb a c
  | None => false
  end.

(** *** The methods of [Fixer] *)

(** [_reset] *)
Definition _reset : M unit :=
  assign_token_stack OrderedDict.empty ;;;
  assign_is_in_string false ;;;
  assign_last_object_position (-1) ;;;
  assign_last_array_position (-1).

(** [_maybe_literal] *)
Definition _maybe_literal (json_string : string) : M (option string) :=
  c <- getitem json_string 0 ;;
  if negb (PyStr.mem c "tfn") then ret None
  else
    ret (find (fun literal => PyStr.startswith json_string literal)
              ["true"; "false"; "null"]).

(** [_pad_string] *)
Definition _pad_string (s : string) : M (option string) :=
  last <- getitem s (-1) ;;
  let last2 := PyStr.slice_from (-2) s in
  if String.eqb last2 (String backslash (String dquote EmptyString))
     || negb (Ascii.eqb last dquote)
  then ret (Some (s ++ PyStr.of_char dquote))
  else ret None.

(** [_quick_fix] *)
Definition _quick_fix (json_string : string) : M (option string) :=
  c <- getitem json_string 0 ;;
  let pair := _complementary_pairs c in
  let otherwise :=
    if negb (Ascii.eqb c dquote) then _maybe_literal json_string
    else _pad_string json_string in
  match pair with
  | Some p =>
      if PyStr.len json_string =? 1
      then ret (Some (json_string ++ PyStr.of_char p))
      else otherwise
  | None => otherwise
  end.

(** [_last_token] *)
Definition _last_token : M (option ascii) :=
  read (fun self => OrderedDict.last_value (_token_stack self)).

(** [_pop_token(token)]; [token = None] is the call without argument. *)
Definition _pop_token (token : option ascii) : M (option (Z * ascii)) :=
  match token with
  | None =>
      d <- read _token_stack ;;
      match OrderedDict.popitem d with
      | Some (kv, d') => mutate_token_stack (fun _ => d') ;;; ret (Some kv)
      | None => raise KeyError
      end
  | Some tok =>
      mutate_token_stack (OrderedDict.del_last_of tok) ;;; ret None
  end.

(** [_maybe_string]; [prev] is [None] for the empty string. *)
Definition _maybe_string (prev : option ascii) (char : ascii) (i : Z) : M bool :=
  (if negb (opt_is prev backslash) && Ascii.eqb char dquote
   then b <- read _is_in_string ;; assign_is_in_string (negb b)
   else ret tt) ;;;
  b <- read _is_in_string ;;
  last <- _last_token ;;
  (if b && negb (opt_is last dquote)
   then mutate_token_stack (OrderedDict.set i dquote)
   else ret tt) ;;;
  read _is_in_string.

(** [_update_position] *)
Definition _update_position (char : ascii) (i : Z) : M unit :=
  if Ascii.eqb char "{" then assign_last_object_position i
  else if Ascii.eqb char "}" then
    _pop_token (Some "{"%char) ;;; assign_last_object_position (-1)
  else if Ascii.eqb char "[" then assign_last_array_position i
  else if Ascii.eqb char "]" then
    _pop_token (Some "["%char) ;;; assign_last_array_position (-1)
  else ret tt.

(** [_stack] *)
Definition _stack (prev : option ascii) (char : ascii) (i : Z)
    (next : option ascii) : M unit :=
  in_string <- _maybe_string prev char i ;;
  if in_string then ret tt
  else
    last <- _last_token ;;
    (match last with
     | Some l =>
         if PyStr.mem l (String "," (String ":" (String dquote EmptyString)))
            && PyStr.mem char (String dquote "0123456789{[tfn")
         then _pop_token None ;;; ret tt
         else ret tt
     | None => ret tt
     end) ;;;
    (if PyStr.mem char ",:[{"
     then mutate_token_stack (OrderedDict.set i char)
     else ret tt) ;;;
    _update_position char i.

(** [_pad_literal] *)
Definition _pad_literal (tmp_json : string) : M string :=
  in_string <- read _is_in_string ;;
  if in_string then ret tmp_json
  else
    match match_dollar literal_pattern tmp_json with
    | None => ret tmp_json
    | Some g1 =>
        literal <- _maybe_literal g1 ;;
        match literal with
        | None => ret tmp_json
        | Some lit => ret (PyStr.slice_to (0 - PyStr.len g1) tmp_json ++ lit)
        end
    end.

(** [_pad_stack] *)
Definition _pad_stack (tmp_json : string) : M string :=
  d <- read _token_stack ;;
  ret (fold_left
         (fun tmp '(_, token) =>
            match _complementary_pairs token with
            | Some closer => tmp ++ PyStr.of_char closer
            | None => tmp
            end)
         (OrderedDict.reversed_items d) tmp_json).

(** [_object_needs_padding] *)
Definition _object_needs_padding (tmp_json : string) : M bool :=
  last <- getitem tmp_json (-1) ;;
  in_string <- read _is_in_string ;;
  let is_empty := Ascii.eqb last "{" && negb in_string in
  array_position <- read _last_array_position ;;
  object_position <- read _last_object_position ;;
  ret (negb is_empty && (array_position <? object_position)).

(** [_pad_object] *)
Definition _pad_object (tmp_json : string) : M string :=
  needs <- _object_needs_padding tmp_json ;;
  if negb needs then ret tmp_json
  else
    object_position <- read _last_object_position ;;
    let part := PyStr.slice_from (object_position + 1) tmp_json in
    match match_dollar object_pattern part with
    | Some _ => ret tmp_json
    | None =>
        in_string <- read _is_in_string ;;
        let tmp1 := if in_string then tmp_json ++ PyStr.of_char dquote
                    else tmp_json in
        let tmp2 := if negb (PyStr.endswith_char tmp1 ":") then tmp1 ++ ":"
                    else tmp1 in
        let tmp3 := tmp2 ++ _missing_value in
        last <- _last_token ;;
        (if opt_is last dquote then _pop_token None ;;; ret tt else ret tt) ;;;
        ret tmp3
    end.

(** The loop of [_pad]: each round pops one entry, so as many rounds as
    the stack has entries, and one more test, are all it can take. *)
Definition pop_trailing_commas : M unit :=
  d <- read _token_stack ;;
  while_ (S (List.length d))
    (last <- _last_token ;; ret (opt_is last ","))
    (_pop_token None ;;; ret tt).

(** The first statement of [_pad], the trailing separator strip. *)
Definition strip_trailing_separators (tmp_json : string) : M string :=
  in_string <- read _is_in_string ;;
  if negb in_string
  then
    let stripped := PyStr.rstrip "," tmp_json in
    pop_trailing_commas ;;; ret stripped
  else ret tmp_json.

(** [_pad] *)
Definition _pad (tmp_json : string) : M string :=
  tmp1 <- strip_trailing_separators tmp_json ;;
  tmp2 <- _pad_literal tmp1 ;;
  tmp3 <- _pad_object tmp2 ;;
  _pad_stack tmp3.

(** The message of the [RuntimeError]. *)
Definition could_not_fix (padding : string) : string :=
  "Could not fix JSON (tried padding " ++ PyStr.of_char dquote ++ padding
   ++ PyStr.of_char dquote ++ ")".

(** [_fix_or_fail] *)
Definition _fix_or_fail (json_string : string) : M string :=
  let l := PyStr.len json_string in
  tmp <- _pad json_string ;;
  if _is_valid_json tmp then ret tmp
  else raise (RuntimeError (could_not_fix (PyStr.slice_from l tmp))).

(** [fix]; the name is a keyword of Rocq, hence the underscore. *)
Definition fix_ (json_string : string) : M string :=
  let '(head, body, tail) := _trim json_string in
  if (PyStr.len body =? 0) || _is_valid_json body then ret body
  else
    quick_fixed_json <- _quick_fix body ;;
    match quick_fixed_json with
    | Some fixed => ret fixed
    | None =>
        _reset ;;;
        let l := PyStr.len body in
        for_range (String.length body)
          (fun i =>
             char <- getitem body i ;;
             prev <- (if i =? 0 then ret None
                      else c <- getitem body (i - 1) ;; ret (Some c)) ;;
             next <- (if i + 1 >=? l then ret None
                      else c <- getitem body (i + 1) ;; ret (Some c)) ;;
             if negb (in_whitespace char) then _stack prev char i next
             else ret tt) ;;;
        fixed <- _fix_or_fail body ;;
        ret (head ++ fixed ++ tail)
    end.

(** What a caller of [fix] observes. *)
Definition result (json_string : string) (self : Fixer) : outcome string :=
  fst (fix_ json_string self).

(** ** Vocabulary of the statements *)

(** The closers that [_pad_stack] appends for a stack: one per entry that
    has a complementary token, from the newest entry to the oldest. *)
Definition closers_of (d : OrderedDict.t) : string :=
  fold_right
    (fun '(_, token) acc =>
       match _complementary_pairs token with
       | Some closer => String closer acc
       | None => acc
       end)
    EmptyString (OrderedDict.reversed_items d).

(** The stack once a topmost quote entry has been popped. *)
Definition without_top_quote (d : OrderedDict.t) : OrderedDict.t :=
  match OrderedDict.popitem d with
  | Some ((_, token), d') => if Ascii.eqb token dquote then d' else d
  | None => d
  end.

(** [n] commas. *)
Fixpoint commas (n : nat) : string :=
  match n with
  | O => EmptyString
  | S n' => String "," (commas n')
  end.

(** Every character of [s] satisfies [p]. *)
Fixpoint all_chars (p : ascii -> bool) (s : string) : bool :=
  match s with
  | EmptyString => true
  | String c r => p c && all_chars p r
  end.

(** A method that neither reads nor writes the object. *)
Definition stateless {A} (m : M A) : Prop :=
  exists o, forall self, m self = (o, self).

(** Two objects that own a dictionary and agree on everything a method
    can read from an instance; their class-level dictionaries may differ. *)
Definition agree (self1 self2 : Fixer) : Prop :=
  own_token_stack self1 <> None
  /\ own_token_stack self1 = own_token_stack self2
  /\ _is_in_string self1 = _is_in_string self2
  /\ _last_object_position self1 = _last_object_position self2
  /\ _last_array_position self1 = _last_array_position self2.

(** A method that behaves alike on agreeing objects, keeps them agreeing
    and leaves the class-level dictionary alone. *)
Definition stable {A} (m : M A) : Prop :=
  forall self1 self2, agree self1 self2 ->
    fst (m self1) = fst (m self2)
    /\ agree (snd (m self1)) (snd (m self2))
    /\ class_token_stack (snd (m self1)) = class_token_stack self1
    /\ class_token_stack (snd (m self2)) = class_token_stack self2.

(** The last character of a text, by recursion on the text. *)
Fixpoint last_char (s : string) : option ascii :=
  match s with
  | EmptyString => None
  | String c EmptyString => Some c
  | String _ r => last_char r
  end.

(** The cut at the first character that satisfies [p], by recursion on
    the text. *)
Fixpoint cut_first (p : ascii -> bool) (s : string) : string * string :=
  match s with
  | EmptyString => (EmptyString, EmptyString)
  | String c r =>
      if p c then (EmptyString, s)
      else let '(x, y) := cut_first p r in (String c x, y)
  end.

(** The object after scanning the body of the scenario below: the stack
    holds the open brace and the colon. *)
Definition scanned_key_colon : Fixer :=
  mkFixer [] (Some [(0, "{"%char); (4, ":"%char)]) false 0 (-1).

(** The object after scanning the body of the scenario of C8 without its
    final white space: the last comma is still on the stack. *)
Definition scanned_open_array : Fixer :=
  mkFixer [] (Some [(0, "{"%char); (5, "["%char); (9, ","%char)]) false 0 5.

(** The proper non-empty prefixes of the three literals. *)
Definition literal_prefixes : list string :=
  ["t"; "tr"; "tru"; "f"; "fa"; "fal"; "fals"; "n"; "nu"; "nul"].

(** ** Vocabulary of the further properties *)

(** The cut at the last character that satisfies [p], by recursion on the
    text: the text and the empty text when no character does. *)
Fixpoint cut_last (p : ascii -> bool) (s : string) : string * string :=
  match s with
  | EmptyString => (EmptyString, EmptyString)
  | String c r =>
      match cut_last p r with
      | (x, String d y) => (String c x, String d y)
      | (_, EmptyString) =>
          if p c then (EmptyString, s) else (s, EmptyString)
      end
  end.

(** The body of the loop of [fix], and the loop. *)
Definition scan_char (body : string) (i : Z) : M unit :=
  char <- getitem body i ;;
  prev <- (if i =? 0 then ret None
           else c <- getitem body (i - 1) ;; ret (Some c)) ;;
  next <- (if i + 1 >=? PyStr.len body then ret None
           else c <- getitem body (i + 1) ;; ret (Some c)) ;;
  if negb (in_whitespace char) then _stack prev char i next
  else ret tt.

Definition scan (body : string) : M unit :=
  for_range (String.length body) (scan_char body).

(** What the methods can see of an object: the dictionary that
    [self._token_stack] denotes and the three other attributes. *)
Definition observe (self : Fixer) : OrderedDict.t * bool * Z * Z :=
  (_token_stack self, _is_in_string self,
   _last_object_position self, _last_array_position self).

(** The effect of [_stack(prev, char, i, next)] on what is observed. *)
Definition stack_effect (prev : option ascii) (char : ascii) (i : Z)
    (v : OrderedDict.t * bool * Z * Z) : OrderedDict.t * bool * Z * Z :=
  let '(d, b, p, q) := v in
  let b1 := if negb (opt_is prev backslash) && Ascii.eqb char dquote
            then negb b else b in
  let d1 := if b1 && negb (opt_is (OrderedDict.last_value d) dquote)
            then OrderedDict.set i dquote d else d in
  if b1 then (d1, b1, p, q)
  else
    let d2 :=
      match OrderedDict.last_value d1 with
      | Some l =>
          if PyStr.mem l (String "," (String ":" (String dquote EmptyString)))
             && PyStr.mem char (String dquote "0123456789{[tfn")
          then match OrderedDict.popitem d1 with
               | Some (_, d') => d'
               | None => d1
               end
          else d1
      | None => d1
      end in
    let d3 := if PyStr.mem char ",:[{" then OrderedDict.set i char d2
              else d2 in
    if Ascii.eqb char "{" then (d3, b1, i, q)
    else if Ascii.eqb char "}"
         then (OrderedDict.del_last_of "{" d3, b1, -1, q)
    else if Ascii.eqb char "[" then (d3, b1, p, i)
    else if Ascii.eqb char "]"
         then (OrderedDict.del_last_of "[" d3, b1, p, -1)
    else (d3, b1, p, q).

(** [prev] as the loop of [fix] computes it. *)
Definition prev_of (body : string) (i : Z) : option ascii :=
  if i =? 0 then None else PyStr.index (i - 1) body.

(** The tokens that the scanner puts on the stack. *)
Definition is_token (c : ascii) : bool :=
  PyStr.mem c (String "{" (String "[" (String dquote ",:"))).

(** Entries from the newest to the oldest whose positions decrease and
    stay in [0 .. n - 1]. *)
Fixpoint below (n : Z) (newest_first : list (Z * ascii)) : Prop :=
  match newest_first with
  | [] => True
  | (k, _) :: older => 0 <= k < n /\ below k older
  end.

Definition quote_free (entries : list (Z * ascii)) : Prop :=
  Forall (fun kv => snd kv <> dquote) entries.

(** The one quote entry: on top while inside a string, absent outside. *)
Definition quotes_ok (in_string : bool) (newest_first : list (Z * ascii))
    : Prop :=
  if in_string
  then exists k older,
         newest_first = (k, dquote) :: older /\ quote_free older
  else quote_free newest_first.

(** A recorded position: the sentinel, or an index of the body below [n]
    that holds the opening token. *)
Definition position_ok (body : string) (n : Z) (opener : ascii) (p : Z)
    : Prop :=
  p = -1 \/ (0 <= p < n /\ PyStr.index p body = Some opener).

(** Every entry records a token and the position of the body where that
    token stands. *)
Definition mirrors (body : string) (entries : list (Z * ascii)) : Prop :=
  Forall (fun kv => PyStr.index (fst kv) body = Some (snd kv)
                    /\ is_token (snd kv) = true) entries.

(** What the scan keeps true after the first [n] characters of the body. *)
Definition scan_inv (body : string) (n : Z)
    (v : OrderedDict.t * bool * Z * Z) : Prop :=
  let '(d, b, p, q) := v in
  below n (rev d)
  /\ quotes_ok b (rev d)
  /\ mirrors body (rev d)
  /\ position_ok body n "{" p
  /\ position_ok body n "[" q.

(** The object when the padder starts: [_reset], then the scan. *)
Definition scanned (body : string) (self : Fixer) : Fixer :=
  snd (scan body (snd (_reset self))).

(** The character at [i] changes [_is_in_string]: a quote that does not
    follow a backslash. *)
Definition toggles_at (body : string) (i : Z) : bool :=
  negb (opt_is (prev_of body i) backslash)
  && opt_is (PyStr.index i body) dquote.

(** The number of such characters among the first [n]. *)
Definition unescaped_quotes (body : string) (n : nat) : nat :=
  List.length (filter (fun i => toggles_at body (Z.of_nat i)) (seq 0 n)).

(** A body that is not empty and holds commas only. *)
Definition commas_only (body : string) : Prop :=
  body <> EmptyString /\ all_chars (Ascii.eqb ","%char) body = true.

(** What [_pad_object] can append to the text. *)
Definition object_paddings : list string :=
  [EmptyString; "null"; ":null";
   String dquote ":null"].

(** * Properties *)

(** ** Texts *)

Lemma append_assoc (a b c : string) : (a ++ b) ++ c = a ++ (b ++ c).
Proof. induction a as [ | x a IH]; simpl; [ reflexivity | now rewrite IH ]. Qed.

Lemma append_empty_r (a : string) : a ++ EmptyString = a.
Proof. induction a as [ | x a IH]; simpl; [ reflexivity | now rewrite IH ]. Qed.

Lemma take_drop (n : nat) (s : string) : PyStr.take n s ++ PyStr.drop n s = s.
Proof.
  revert s. induction n as [ | n IH]; intros [ | c r]; simpl; try reflexivity.
  now rewrite IH.
Qed.

(** ** The oracle never runs out of fuel *)

Module JsonFacts.
Import Json.

Local Open Scope nat_scope.

Lemma skip_ws_length s : String.length (skip_ws s) <= String.length s.
Proof.
  induction s as [ | c r IH]; simpl; [ lia | ].
  destruct (is_ws c); simpl; lia.
Qed.

Lemma skip_digits_length s : String.length (skip_digits s) <= String.length s.
Proof.
  induction s as [ | c r IH]; simpl; [ lia | ].
  destruct (is_digit c); simpl; lia.
Qed.

Lemma digits1_length s r :
  digits1 s = Some r -> String.length r < String.length s.
Proof.
  destruct s as [ | c s']; simpl; [ discriminate | ].
  destruct (is_digit c); [ | discriminate ].
  intros H. injection H as <-. pose proof (skip_digits_length s'). lia.
Qed.

Lemma number_int_length s r :
  number_int s = Some r -> String.length r < String.length s.
Proof.
  unfold number_int. intros H.
  assert (forall t, match t with
                    | String c r0 =>
                        if Ascii.eqb c "0" then Some r0
                        else if is_digit c then Some (skip_digits r0)
                        else None
                    | EmptyString => None
                    end = Some r -> String.length r < String.length t) as Ht.
  { intros [ | c r0]; [ discriminate | ].
    destruct (Ascii.eqb c "0"); [ intros E; injection E as <-; simpl; lia | ].
    destruct (is_digit c); [ | discriminate ].
    intros E. injection E as <-. pose proof (skip_digits_length r0).
    simpl. lia. }
  destruct s as [ | c s']; [ discriminate | ].
  destruct (Ascii.eqb c "-").
  - apply (Ht s') in H. simpl. lia.
  - apply (Ht (String c s')) in H. exact H.
Qed.

Lemma number_frac_length s : String.length (number_frac s) <= String.length s.
Proof.
  destruct s as [ | c r]; simpl; [ lia | ].
  destruct (Ascii.eqb c "."); [ | simpl; lia ].
  destruct (digits1 r) as [r' | ] eqn:E; [ | simpl; lia ].
  apply digits1_length in E. lia.
Qed.

Lemma number_exp_length s : String.length (number_exp s) <= String.length s.
Proof.
  destruct s as [ | c r]; simpl; [ lia | ].
  destruct (Ascii.eqb c "e" || Ascii.eqb c "E"); [ | simpl; lia ].
  destruct (digits1 _) as [r' | ] eqn:E; [ | simpl; lia ].
  apply digits1_length in E.
  destruct r as [ | d r0]; [ simpl in *; lia | ].
  destruct (Ascii.eqb d "-" || Ascii.eqb d "+"); simpl in *; lia.
Qed.

Lemma match_number_length s r :
  match_number s = Some r -> String.length r < String.length s.
Proof.
  unfold match_number. destruct (number_int s) as [r0 | ] eqn:E;
    [ | discriminate ].
  intros H. injection H as <-. apply number_int_length in E.
  pose proof (number_frac_length r0).
  pose proof (number_exp_length (number_frac r0)). lia.
Qed.

Lemma drop_length n s :
  String.length (PyStr.drop n s) = String.length s - n.
Proof.
  revert s. induction n as [ | n IH]; intros [ | c r]; simpl; auto; lia.
Qed.

Lemma constant_length word s r :
  0 < String.length word -> 0 < String.length s ->
  constant word s = Accept r -> String.length r < String.length s.
Proof.
  unfold constant. intros Hw Hs. destruct (PyStr.startswith s word);
    [ | discriminate ].
  intros H. injection H as <-. rewrite drop_length. lia.
Qed.

Lemma scan_atom_length c s r :
  0 < String.length s ->
  scan_atom c s = Accept r -> String.length r < String.length s.
Proof.
  unfold scan_atom. intros Hs H.
  repeat match type of H with
         | (if ?b then _ else _) = _ => destruct b
         | match match_number ?x with _ => _ end = _ =>
             destruct (match_number x) eqn:En
         end;
    try discriminate H;
    try (apply constant_length in H; [ exact H | simpl; lia | exact Hs ]).
  injection H as <-. now apply match_number_length.
Qed.

Lemma scan_atom_fuel c s : scan_atom c s <> OutOfFuel.
Proof.
  unfold scan_atom, constant.
  repeat match goal with
         | |- context [if ?b then _ else _] => destruct b
         | |- context [match match_number ?x with _ => _ end] =>
             destruct (match_number x)
         end; discriminate.
Qed.

Lemma scanstring_length s r :
  scanstring s = Some r -> String.length r < String.length s.
Proof.
  remember (String.length s) as n eqn:Hn. revert s r Hn.
  induction n as [n IH] using lt_wf_ind. intros s r Hn.
  destruct s as [ | c s1]; simpl; [ discriminate | ].
  destruct (Ascii.eqb c dquote).
  { intros H. injection H as <-. simpl in Hn. lia. }
  destruct (Ascii.eqb c backslash).
  - destruct s1 as [ | e s2]; [ discriminate | ].
    destruct (Ascii.eqb e "u").
    + destruct s2 as [ | h1 [ | h2 [ | h3 [ | h4 s3]]]]; try discriminate.
      destruct (_ && _); [ | discriminate ].
      intros H. apply (IH (String.length s3)) in H; simpl in *; try lia.
    + destruct (_ || _); [ | discriminate ].
      intros H. apply (IH (String.length s2)) in H; simpl in *; try lia.
  - destruct (nat_of_ascii c <? 32); [ discriminate | ].
    intros H. apply (IH (String.length s1)) in H; simpl in *; try lia.
Qed.

Ltac break_in H :=
  match type of H with
  | match ?x with _ => _ end = _ => destruct x eqn:?
  | (if ?b then _ else _) = _ => destruct b eqn:?
  end.

Ltac length_facts :=
  repeat match goal with
    | E : skip_ws ?a = ?b |- _ =>
        assert (String.length b <= String.length a)
          by (rewrite <- E; apply skip_ws_length);
        clear E
    | E : scanstring _ = Some _ |- _ => apply scanstring_length in E
    | H : context [String.length (skip_ws ?a)] |- _ =>
        lazymatch goal with
        | _ : String.length (skip_ws a) <= String.length a |- _ => fail
        | _ => pose proof (skip_ws_length a)
        end
    | |- context [String.length (skip_ws ?a)] =>
        lazymatch goal with
        | _ : String.length (skip_ws a) <= String.length a |- _ => fail
        | _ => pose proof (skip_ws_length a)
        end
    end.

Lemma scan_shrinks fuel :
  (forall s r, scan_once fuel s = Accept r ->
               String.length r < String.length s)
  /\ (forall s r, members fuel s = Accept r ->
                  String.length r < String.length s)
  /\ (forall s r, elements fuel s = Accept r ->
                  String.length r < String.length s).
Proof.
  induction fuel as [ | f (IHs & IHm & IHe)].
  { repeat split; intros s r H; discriminate H. }
  repeat split; intros s r H; simpl in H.
  - destruct s as [ | c s1]; [ discriminate H | ].
    destruct (Ascii.eqb c dquote).
    { repeat (break_in H; try discriminate H). injection H as <-.
      length_facts. simpl. lia. }
    destruct (Ascii.eqb c "{").
    { repeat (break_in H; try discriminate H);
        [ injection H as <- | apply IHm in H ];
        length_facts; simpl in *; lia. }
    destruct (Ascii.eqb c "[").
    { repeat (break_in H; try discriminate H);
        [ apply IHe in H | injection H as <- | apply IHe in H ];
        length_facts; simpl in *; lia. }
    apply scan_atom_length in H; simpl in *; lia.
  - repeat (break_in H; try discriminate H);
      match goal with
      | E : scan_once f _ = Accept _ |- _ => apply IHs in E
      end;
      [ injection H as <- | apply IHm in H ];
      length_facts; simpl in *; lia.
  - repeat (break_in H; try discriminate H);
      match goal with
      | E : scan_once f _ = Accept _ |- _ => apply IHs in E
      end;
      [ injection H as <- | apply IHe in H ];
      length_facts; simpl in *; lia.
Qed.

Ltac shrink_facts :=
  repeat match goal with
    | E : scan_once ?f _ = Accept _ |- _ =>
        apply (proj1 (scan_shrinks f)) in E
    end;
  length_facts.

Lemma scan_has_fuel fuel :
  (forall s, 2 * String.length s + 1 <= fuel ->
             scan_once fuel s <> OutOfFuel)
  /\ (forall s, 2 * String.length s + 2 <= fuel ->
                members fuel s <> OutOfFuel)
  /\ (forall s, 2 * String.length s + 2 <= fuel ->
                elements fuel s <> OutOfFuel).
Proof.
  induction fuel as [ | f (IHs & IHm & IHe)].
  { repeat split; intros s Hb; lia. }
  repeat split; intros s Hb H; simpl in H.
  - destruct s as [ | c s1]; [ discriminate H | ].
    destruct (Ascii.eqb c dquote).
    { repeat (break_in H; try discriminate H). }
    destruct (Ascii.eqb c "{").
    { repeat (break_in H; try discriminate H).
      apply IHm in H; [ exact H | ]. shrink_facts. simpl in *. lia. }
    destruct (Ascii.eqb c "[").
    { repeat (break_in H; try discriminate H);
        (apply IHe in H; [ exact H | ]); shrink_facts; simpl in *; lia. }
    exact (scan_atom_fuel c _ H).
  - repeat (break_in H; try discriminate H).
    + apply IHm in H; [ exact H | ]. shrink_facts. simpl in *. lia.
    + match goal with
      | E : scan_once f _ = OutOfFuel |- _ => apply IHs in E; [ exact E | ]
      end.
      shrink_facts. simpl in *. lia.
  - repeat (break_in H; try discriminate H).
    + apply IHe in H; [ exact H | ]. shrink_facts. simpl in *. lia.
    + match goal with
      | E : scan_once f _ = OutOfFuel |- _ => apply IHs in E; [ exact E | ]
      end.
      lia.
Qed.

(** [loads] decides: it accepts or rejects every text. *)
Lemma loads_decides s : loads s <> OutOfFuel.
Proof.
  unfold loads. intros H.
  destruct (scan_once _ _) as [r | | ] eqn:E.
  - destruct (skip_ws r); discriminate H.
  - discriminate H.
  - apply (proj1 (scan_has_fuel _)) in E; [ exact E | ].
    pose proof (skip_ws_length s). lia.
Qed.

End JsonFacts.

Lemma is_valid_json_decides s :
  (_is_valid_json s = true /\ exists r, Json.loads s = Json.Accept r)
  \/ (_is_valid_json s = false /\ Json.loads s = Json.Reject).
Proof.
  unfold _is_valid_json. pose proof (JsonFacts.loads_decides s) as H.
  destruct (Json.loads s) as [r | | ]; [ left | right | contradiction ]; eauto.
Qed.

(** ** The trimmer *)

Lemma bound_of_nat i s :
  PyStr.bound (Z.of_nat i) s = Nat.min i (String.length s).
Proof.
  unfold PyStr.bound, PyStr.len.
  replace (Z.of_nat i <? 0) with false by (symmetry; apply Z.ltb_ge; lia).
  lia.
Qed.

Lemma find_map {A B} (f : B -> bool) (g : A -> B) (l : list A) :
  find f (map g l) = option_map g (find (fun x => f (g x)) l).
Proof.
  induction l as [ | a l IH]; simpl; [ reflexivity | ].
  destruct (f (g a)); [ reflexivity | exact IH ].
Qed.

Lemma split_at_forward p s : split_at p s false = cut_first p s.
Proof.
  unfold split_at. induction s as [ | c r IH]; [ reflexivity | ].
  simpl String.length. simpl seq. simpl find. simpl cut_first.
  destruct (p c).
  - reflexivity.
  - rewrite <- seq_shift, find_map. rewrite <- IH.
    destruct (find _ (seq 0 (String.length r))) as [i | ]; simpl option_map.
    + unfold PyStr.slice_to, PyStr.slice_from.
      rewrite !bound_of_nat. simpl String.length.
      rewrite <- Nat.succ_min_distr. reflexivity.
    + reflexivity.
Qed.

Lemma split_at_concat p l from_right :
  fst (split_at p l from_right) ++ snd (split_at p l from_right) = l.
Proof.
  unfold split_at. destruct (find _ _) as [i | ]; simpl.
  - apply take_drop.
  - apply append_empty_r.
Qed.

Lemma cut_first_spec p s :
  all_chars (fun c => negb (p c)) (fst (cut_first p s)) = true
  /\ match snd (cut_first p s) with
     | EmptyString => True
     | String c _ => p c = true
     end.
Proof.
  induction s as [ | c r [IH1 IH2]]; simpl; [ auto | ].
  destruct (p c) eqn:E; simpl; [ auto | ].
  destruct (cut_first p r) as [x y]. simpl in *. rewrite E. auto.
Qed.

(** What does hold of the trimmer: the three parts make up the text, the
    first part is white space only, and what follows it is empty or
    starts with a character that is not white space. *)
Lemma trim_parts s :
  let '(leading, body, trailing) := _trim s in
  leading ++ body ++ trailing = s
  /\ all_chars in_whitespace leading = true
  /\ match body ++ trailing with
     | EmptyString => True
     | String c _ => in_whitespace c = false
     end.
Proof.
  unfold _trim.
  pose proof (split_at_concat (fun c => negb (in_whitespace c)) s false) as C1.
  pose proof (cut_first_spec (fun c => negb (in_whitespace c)) s) as [L1 L2].
  rewrite <- split_at_forward in L1, L2.
  destruct (split_at _ s false) as [leading rest]. simpl in *.
  pose proof (split_at_concat (fun c => in_whitespace c) rest true) as C2.
  destruct (split_at _ rest true) as [body trailing]. simpl in *.
  rewrite C2. split; [ exact C1 | ]. split.
  - rewrite <- L1. clear. induction leading as [ | c r IH]; simpl;
      [ reflexivity | ]. rewrite IH, negb_involutive. reflexivity.
  - destruct rest as [ | c r]; [ exact I | ].
    now apply negb_true_iff in L2.
Qed.

(** C2 at the failing inputs: the second cut is made at the last white
    space character of the text, so the third component holds whatever
    follows it, and the body keeps the white space before it. *)
Theorem trim_cuts_at_last_whitespace :
  _trim "a b" = (EmptyString, "a", " b")
  /\ all_chars in_whitespace " b" = false
  /\ _trim "a  " = (EmptyString, "a ", " ")
  /\ _trim (py "{'a': 1}") = (EmptyString, py "{'a':", " 1}").
Proof. repeat split; vm_compute; reflexivity. Qed.

(** ** The monad *)

Lemma bind_Return {A B} (m : M A) (k : A -> M B) self b :
  fst (bind m k self) = Return b ->
  exists a self', m self = (Return a, self') /\ fst (k a self') = Return b.
Proof.
  unfold bind. destruct (m self) as [[a | e] self'] eqn:E; simpl; intros H.
  - exists a, self'. split; [reflexivity | exact H].
  - discriminate H.
Qed.

Lemma stateless_ret {A} (a : A) : stateless (ret a).
Proof. exists (Return a). reflexivity. Qed.

Lemma stateless_raise {A} e : stateless (@raise A e).
Proof. exists (Raise e). reflexivity. Qed.

Lemma stateless_bind {A B} (m : M A) (k : A -> M B) :
  stateless m -> (forall a, stateless (k a)) -> stateless (bind m k).
Proof.
  intros [o Hm] Hk. destruct o as [a | e].
  - destruct (Hk a) as [o' Hk']. exists o'. intros self.
    unfold bind. rewrite Hm. apply Hk'.
  - exists (Raise e). intros self. unfold bind. rewrite Hm. reflexivity.
Qed.

Lemma stateless_getitem s i : stateless (getitem s i).
Proof.
  unfold getitem. destruct (PyStr.index i s);
    [apply stateless_ret | apply stateless_raise].
Qed.

Create HintDb fixer.

#[local] Hint Resolve stateless_ret stateless_raise stateless_getitem : fixer.

Ltac stateless_step :=
  match goal with
  | |- stateless (bind _ _) => apply stateless_bind; [ | intro ]
  | |- stateless (if ?b then _ else _) => destruct b
  | |- stateless (match ?x with _ => _ end) => destruct x
  | |- stateless _ => solve [ auto with fixer ]
  end.

Lemma stateless_maybe_literal s : stateless (_maybe_literal s).
Proof. unfold _maybe_literal. repeat stateless_step. Qed.

Lemma stateless_pad_string s : stateless (_pad_string s).
Proof. unfold _pad_string. repeat stateless_step. Qed.

#[local] Hint Resolve stateless_maybe_literal stateless_pad_string : fixer.

Lemma stateless_quick_fix s : stateless (_quick_fix s).
Proof. unfold _quick_fix. repeat stateless_step. Qed.

(** ** Methods that only see the instance *)

Lemma stable_ret {A} (a : A) : stable (ret a).
Proof. intros s1 s2 H. simpl. auto. Qed.

Lemma stable_raise {A} e : stable (@raise A e).
Proof. intros s1 s2 H. simpl. auto. Qed.

Lemma stable_bind {A B} (m : M A) (k : A -> M B) :
  stable m -> (forall a, stable (k a)) -> stable (bind m k).
Proof.
  intros Hm Hk s1 s2 H. destruct (Hm s1 s2 H) as (Ho & Ha & Hc1 & Hc2).
  unfold bind.
  destruct (m s1) as [o1 t1], (m s2) as [o2 t2]; simpl in *. subst o2.
  destruct o1 as [a | e]; simpl.
  - destruct (Hk a t1 t2 Ha) as (Ho' & Ha' & Hc1' & Hc2').
    rewrite Hc1', Hc2'. auto.
  - auto.
Qed.

Lemma stable_stateless {A} (m : M A) : stateless m -> stable m.
Proof.
  intros [o Hm] s1 s2 H. rewrite !Hm. simpl. auto.
Qed.

Lemma stable_read_flag {A} (f : Fixer -> A) :
  (forall s1 s2, agree s1 s2 -> f s1 = f s2) -> stable (read f).
Proof.
  intros Hf s1 s2 H. unfold read; simpl. rewrite (Hf s1 s2 H). auto.
Qed.

Lemma stable_read_token_stack : stable (read _token_stack).
Proof.
  apply stable_read_flag. intros s1 s2 (Hown & He & _).
  unfold _token_stack. rewrite <- He.
  destruct (own_token_stack s1); [ reflexivity | contradiction ].
Qed.

Lemma stable_read_is_in_string : stable (read _is_in_string).
Proof. apply stable_read_flag. unfold agree. intuition. Qed.

Lemma stable_read_object_position : stable (read _last_object_position).
Proof. apply stable_read_flag. unfold agree. intuition. Qed.

Lemma stable_read_array_position : stable (read _last_array_position).
Proof. apply stable_read_flag. unfold agree. intuition. Qed.

Lemma stable_last_token : stable _last_token.
Proof.
  intros s1 s2 H. destruct (stable_read_token_stack s1 s2 H) as (Ho & _).
  unfold _last_token, read in *; simpl in *.
  injection Ho as Ho. rewrite Ho. auto.
Qed.

Lemma stable_mutate f : stable (mutate_token_stack f).
Proof.
  intros s1 s2 (Hown & He & Hs & Ho & Ha). unfold mutate_token_stack.
  rewrite <- He. destruct (own_token_stack s1) as [d | ]; [ | contradiction ].
  simpl. unfold agree; simpl. intuition discriminate.
Qed.

Lemma stable_assign_is_in_string b : stable (assign_is_in_string b).
Proof. intros s1 s2 H. unfold agree in *. simpl. intuition. Qed.

Lemma stable_assign_object_position i : stable (assign_last_object_position i).
Proof. intros s1 s2 H. unfold agree in *. simpl. intuition. Qed.

Lemma stable_assign_array_position i : stable (assign_last_array_position i).
Proof. intros s1 s2 H. unfold agree in *. simpl. intuition. Qed.

#[local] Hint Resolve stable_ret stable_raise stable_read_token_stack
  stable_read_is_in_string stable_read_object_position
  stable_read_array_position stable_last_token stable_mutate
  stable_assign_is_in_string stable_assign_object_position
  stable_assign_array_position : fixer.

#[local] Hint Extern 1 (stable (getitem _ _)) =>
  apply stable_stateless, stateless_getitem : fixer.
#[local] Hint Extern 1 (stable (_maybe_literal _)) =>
  apply stable_stateless, stateless_maybe_literal : fixer.

Ltac stable_step :=
  match goal with
  | |- stable (bind _ _) => apply stable_bind; [ | intro ]
  | |- stable (if ?b then _ else _) => destruct b
  | |- stable (match ?x with _ => _ end) => destruct x
  | |- stable _ => solve [ auto with fixer ]
  end.

Lemma stable_pop_token token : stable (_pop_token token).
Proof. unfold _pop_token. repeat stable_step. Qed.

#[local] Hint Resolve stable_pop_token : fixer.

Lemma stable_maybe_string prev char i : stable (_maybe_string prev char i).
Proof. unfold _maybe_string. repeat stable_step. Qed.

Lemma stable_update_position char i : stable (_update_position char i).
Proof. unfold _update_position. repeat stable_step. Qed.

#[local] Hint Resolve stable_maybe_string stable_update_position : fixer.

Lemma stable_stack prev char i next : stable (_stack prev char i next).
Proof. unfold _stack. repeat stable_step. Qed.

Lemma stable_for_each l body :
  (forall i, stable (body i)) -> stable (for_each l body).
Proof.
  intros Hb. induction l as [ | i l IH]; simpl.
  - apply stable_ret.
  - apply stable_bind; [ apply Hb | intros _; exact IH ].
Qed.

Lemma stable_while fuel cond body :
  stable cond -> stable body -> stable (while_ fuel cond body).
Proof.
  intros Hc Hb. induction fuel as [ | fuel IH]; simpl.
  - apply stable_ret.
  - apply stable_bind; [ exact Hc | intros [ | ] ].
    + apply stable_bind; [ exact Hb | intros _; exact IH ].
    + apply stable_ret.
Qed.

Lemma stable_pop_trailing_commas : stable pop_trailing_commas.
Proof.
  unfold pop_trailing_commas. apply stable_bind; [ auto with fixer | intros d ].
  apply stable_while; repeat stable_step.
Qed.

#[local] Hint Resolve stable_stack stable_pop_trailing_commas : fixer.

Lemma stable_strip tmp : stable (strip_trailing_separators tmp).
Proof. unfold strip_trailing_separators. repeat stable_step. Qed.

Lemma stable_pad_literal tmp : stable (_pad_literal tmp).
Proof. unfold _pad_literal. repeat stable_step. Qed.

Lemma stable_object_needs_padding tmp : stable (_object_needs_padding tmp).
Proof. unfold _object_needs_padding. repeat stable_step. Qed.

#[local] Hint Resolve stable_object_needs_padding : fixer.

Lemma stable_pad_object tmp : stable (_pad_object tmp).
Proof. unfold _pad_object. repeat stable_step. Qed.

Lemma stable_pad_stack tmp : stable (_pad_stack tmp).
Proof. unfold _pad_stack. repeat stable_step. Qed.

#[local] Hint Resolve stable_strip stable_pad_literal stable_pad_object
  stable_pad_stack : fixer.

Lemma stable_pad tmp : stable (_pad tmp).
Proof. unfold _pad. repeat stable_step. Qed.

#[local] Hint Resolve stable_pad : fixer.

Lemma stable_fix_or_fail s : stable (_fix_or_fail s).
Proof. unfold _fix_or_fail. repeat stable_step. Qed.

#[local] Hint Resolve stable_fix_or_fail : fixer.

(** [_reset] brings any two objects into agreement and does not touch the
    class-level dictionary. *)
Lemma reset_agree self1 self2 :
  agree (snd (_reset self1)) (snd (_reset self2)).
Proof. unfold agree. simpl. intuition discriminate. Qed.

Lemma reset_returns self : fst (_reset self) = Return tt.
Proof. reflexivity. Qed.

Lemma reset_class self :
  class_token_stack (snd (_reset self)) = class_token_stack self.
Proof. reflexivity. Qed.

Lemma bind_unfold {A B} (m : M A) (k : A -> M B) self :
  bind m k self
  = match m self with
    | (Return a, self') => k a self'
    | (Raise e, self') => (Raise e, self')
    end.
Proof. reflexivity. Qed.

(** The part of [fix] that follows the quick fix: reset, scan, pad. *)
Lemma after_reset_stable {A} (k : M A) (self1 self2 : Fixer) :
  stable k ->
  fst ((_reset ;;; k) self1) = fst ((_reset ;;; k) self2)
  /\ class_token_stack (snd ((_reset ;;; k) self1)) = class_token_stack self1.
Proof.
  intros Hk. pose proof (reset_agree self1 self2) as Hag.
  destruct (Hk _ _ Hag) as (Ho & _ & Hc & _).
  change ((_reset ;;; k) self1) with (k (snd (_reset self1))).
  change ((_reset ;;; k) self2) with (k (snd (_reset self2))).
  rewrite Hc. split; [ exact Ho | reflexivity ].
Qed.

Lemma scan_and_pad_stable head body tail :
  stable
    (for_range (String.length body)
       (fun i =>
          char <- getitem body i ;;
          prev <- (if i =? 0 then ret None
                   else c <- getitem body (i - 1) ;; ret (Some c)) ;;
          next <- (if i + 1 >=? PyStr.len body then ret None
                   else c <- getitem body (i + 1) ;; ret (Some c)) ;;
          if negb (in_whitespace char) then _stack prev char i next
          else ret tt) ;;;
     fixed <- _fix_or_fail body ;;
     ret (head ++ fixed ++ tail)).
Proof.
  apply stable_bind.
  - unfold for_range. apply stable_for_each. intros i. repeat stable_step.
  - intros _. repeat stable_step.
Qed.

Lemma fix_outcome_and_class json_string self1 self2 :
  fst (fix_ json_string self1) = fst (fix_ json_string self2)
  /\ class_token_stack (snd (fix_ json_string self1)) = class_token_stack self1.
Proof.
  unfold fix_. destruct (_trim json_string) as [[head body] tail].
  destruct ((PyStr.len body =? 0) || _is_valid_json body).
  - simpl. auto.
  - destruct (stateless_quick_fix body) as [o Hq].
    rewrite !(bind_unfold (_quick_fix body)), !Hq.
    destruct o as [[fixed | ] | e]; simpl; auto.
    apply after_reset_stable, scan_and_pad_stable.
Qed.

(** C10. [fix] is deterministic across calls.  Whatever state the object
    is in (fresh, left behind by an earlier call on another input, or by
    a call that failed) and whatever the class-level dictionary holds, a
    call with the same input gives the same returned string or the same
    exception; and no call changes the class-level dictionary that fresh
    instances start from. *)
Theorem fix_deterministic :
  forall json_string : string,
    (forall self1 self2 : Fixer,
        result json_string self1 = result json_string self2)
    /\ (forall (earlier : string) (self : Fixer) (shared : OrderedDict.t),
           result json_string (snd (fix_ earlier self))
           = result json_string (new_Fixer shared))
    /\ (forall self : Fixer,
           class_token_stack (snd (fix_ json_string self))
           = class_token_stack self).
Proof.
  intros s. unfold result. repeat split; intros.
  - apply fix_outcome_and_class.
  - apply fix_outcome_and_class.
  - apply (fix_outcome_and_class s self self).
Qed.

(** ** The padder *)

Lemma pad_stack_closers tmp self :
  _pad_stack tmp self = (Return (tmp ++ closers_of (_token_stack self)), self).
Proof.
  unfold _pad_stack, bind, read, ret, closers_of. f_equal. f_equal.
  generalize (OrderedDict.reversed_items (_token_stack self)) as l.
  intros l. revert tmp. induction l as [ | [k token] l IH]; intros tmp; simpl.
  - now rewrite append_empty_r.
  - rewrite IH. destruct (_complementary_pairs token) as [closer | ].
    + unfold PyStr.of_char. now rewrite append_assoc.
    + reflexivity.
Qed.

Lemma token_stack_mutated f self :
  _token_stack (snd (mutate_token_stack f self)) = f (_token_stack self).
Proof.
  unfold mutate_token_stack, _token_stack.
  destruct (own_token_stack self); reflexivity.
Qed.

Lemma pop_token_last self kv d' :
  OrderedDict.popitem (_token_stack self) = Some (kv, d') ->
  fst (_pop_token None self) = Return (Some kv)
  /\ _token_stack (snd (_pop_token None self)) = d'.
Proof.
  intros H.
  assert (_pop_token None self
          = (Return (Some kv), snd (mutate_token_stack (fun _ => d') self)))
    as ->.
  { unfold _pop_token, bind, read. rewrite H.
    unfold mutate_token_stack, ret. destruct (own_token_stack self); reflexivity. }
  simpl. split; [ reflexivity | apply token_stack_mutated ].
Qed.

Lemma pop_top_quote self :
  let m := (if opt_is (OrderedDict.last_value (_token_stack self)) dquote
            then _pop_token None ;;; ret tt else ret tt) in
  fst (m self) = Return tt
  /\ _token_stack (snd (m self)) = without_top_quote (_token_stack self).
Proof.
  unfold without_top_quote, OrderedDict.last_value, OrderedDict.popitem.
  destruct (rev (_token_stack self)) as [ | [k v] l] eqn:R;
    cbv beta iota zeta; unfold opt_is.
  - auto.
  - destruct (Ascii.eqb v dquote); [ | auto ].
    destruct (pop_token_last self (k, v) (rev l)) as [Ho Hs].
    { unfold OrderedDict.popitem. now rewrite R. }
    rewrite bind_unfold.
    destruct (_pop_token None self) as [o t]. simpl in Ho, Hs. subst o.
    simpl. auto.
Qed.

Lemma pad_object_synthesises self tmp last :
  PyStr.index (-1) tmp = Some last ->
  Ascii.eqb last "{" && negb (_is_in_string self) = false ->
  _last_array_position self < _last_object_position self ->
  match_dollar object_pattern
    (PyStr.slice_from (_last_object_position self + 1) tmp) = None ->
  let closed := if _is_in_string self then tmp ++ PyStr.of_char dquote
                else tmp in
  let colon := if PyStr.endswith_char closed ":" then EmptyString else ":" in
  fst ((padded <- _pad_object tmp ;; _pad_stack padded) self)
  = Return (closed ++ colon ++ _missing_value
            ++ closers_of (without_top_quote (_token_stack self))).
Proof.
  intros Hlast Hempty Hpos Hpart closed colon.
  unfold _pad_object, _object_needs_padding, getitem.
  rewrite Hlast.
  apply Z.ltb_lt in Hpos.
  unfold bind at 1. unfold bind at 1. unfold bind at 1.
  unfold ret at 1, read at 1, bind at 1.
  unfold read at 1, bind at 1. unfold read at 1, bind at 1. unfold ret at 1.
  rewrite Hempty, Hpos. cbn [negb andb].
  unfold bind at 1, read at 1. rewrite Hpart.
  unfold bind at 1, read at 1. unfold bind at 1, _last_token at 1, read at 1.
  rewrite bind_unfold.
  destruct (pop_top_quote self) as [Ho Hs]. cbv zeta in Ho, Hs.
  match type of Ho with fst (?m self) = _ => destruct (m self) as [o t] end.
  simpl in Ho, Hs. subst o. unfold ret at 1.
  rewrite pad_stack_closers. simpl fst. rewrite Hs.
  f_equal. subst closed colon.
  destruct (PyStr.endswith_char _ ":"); simpl negb; cbv iota;
    rewrite ?append_assoc; reflexivity.
Qed.

(** C7, as the claim has it, fails.  In the first text the only open
    container is the object opened at position 0 and the text after that
    position is not a well-formed sequence of pairs, but the closing brace
    of the inner object has reset the recorded object position to [-1]:
    nothing is synthesised and [fix] raises.  In the second text the
    innermost open container is an object whose contents, the empty text,
    are not a well-formed sequence of pairs either, but the text ends in
    the just-opened brace: the object is closed without a value. *)
Lemma fix_needs_recorded_object_position :
  _token_stack (scanned (py "{'a':{},'b'") (new_Fixer []))
  = [(0, "{"%char); (7, ","%char)]
  /\ _last_object_position (scanned (py "{'a':{},'b'") (new_Fixer [])) = -1
  /\ match_dollar object_pattern (PyStr.slice_from 1 (py "{'a':{},'b'"))
     = None
  /\ result (py "{'a':{},'b'") (new_Fixer [])
     = Raise (RuntimeError (could_not_fix "}"))
  /\ match_dollar object_pattern (PyStr.slice_from 2 "[{") = None
  /\ result "[{" (new_Fixer []) = Return "[{}]".
Proof. repeat split; vm_compute; reflexivity. Qed.

(** C7, amended. [fix] turns the truncated object with a key, a colon and
    no value into the object whose value is [null]; in general, when the
    recorded array position is below the recorded object position (a
    closing brace or bracket resets its position to [-1]), the text does
    not end in a just-opened brace outside a string, and the text after
    the recorded object position is not a well-formed sequence of pairs,
    the padder closes a pending string, appends a colon only if the text
    does not already end with one, appends [null], and then appends the
    closers of the open nesting levels. *)
Theorem fix_synthesises_missing_value :
  (forall self : Fixer,
      result (py "{'a':") self = Return (py "{'a':null}"))
  /\ (forall (self : Fixer) (tmp : string) (last : ascii),
         PyStr.index (-1) tmp = Some last ->
         Ascii.eqb last "{" && negb (_is_in_string self) = false ->
         _last_array_position self < _last_object_position self ->
         match_dollar object_pattern
           (PyStr.slice_from (_last_object_position self + 1) tmp) = None ->
         fst ((padded <- _pad_object tmp ;; _pad_stack padded) self)
         = Return
             ((if _is_in_string self then tmp ++ PyStr.of_char dquote else tmp)
              ++ (if PyStr.endswith_char
                       (if _is_in_string self
                        then tmp ++ PyStr.of_char dquote else tmp) ":"
                  then EmptyString else ":")
              ++ _missing_value
              ++ closers_of (without_top_quote (_token_stack self)))).
Proof.
  split.
  - intros [shared own in_string object_position array_position].
    vm_compute. reflexivity.
  - intros self tmp last H1 H2 H3 H4.
    exact (pad_object_synthesises self tmp last H1 H2 H3 H4).
Qed.

Lemma fix_synthesises_missing_value_witness :
  PyStr.index (-1) (py "{'a':") = Some ":"%char
  /\ Ascii.eqb ":" "{" && negb (_is_in_string scanned_key_colon) = false
  /\ _last_array_position scanned_key_colon
     < _last_object_position scanned_key_colon
  /\ match_dollar object_pattern
       (PyStr.slice_from (_last_object_position scanned_key_colon + 1)
          (py "{'a':")) = None
  /\ fst ((padded <- _pad_object (py "{'a':") ;; _pad_stack padded)
            scanned_key_colon)
     = Return (py "{'a':null}").
Proof.
  assert (H1 : PyStr.index (-1) (py "{'a':") = Some ":"%char) by reflexivity.
  assert (H2 : Ascii.eqb ":" "{" && negb (_is_in_string scanned_key_colon)
               = false) by reflexivity.
  assert (H3 : _last_array_position scanned_key_colon
               < _last_object_position scanned_key_colon) by reflexivity.
  assert (H4 : match_dollar object_pattern
                 (PyStr.slice_from (_last_object_position scanned_key_colon + 1)
                    (py "{'a':")) = None) by reflexivity.
  refine (conj H1 (conj H2 (conj H3 (conj H4 _)))).
  exact (proj2 fix_synthesises_missing_value scanned_key_colon
           (py "{'a':") ":"%char H1 H2 H3 H4).
Defined.

(** ** The trailing separator strip *)

Lemma get_length_last c r :
  String.get (String.length r) (String c r) = last_char (String c r).
Proof.
  revert c. induction r as [ | d r IH]; intros c; [ reflexivity | ].
  change (String.get (String.length r) (String d r) = last_char (String d r)).
  apply IH.
Qed.

Lemma index_last s : PyStr.index (-1) s = last_char s.
Proof.
  destruct s as [ | c r]; [ reflexivity | ].
  unfold PyStr.index, PyStr.len.
  change (-1 <? 0) with true. cbv iota.
  replace (-1 + Z.of_nat (String.length (String c r)))
    with (Z.of_nat (String.length r)) by (simpl String.length; lia).
  replace (0 <=? Z.of_nat (String.length r)) with true
    by (symmetry; apply Z.leb_le; lia).
  replace (Z.of_nat (String.length r) <? Z.of_nat (String.length (String c r)))
    with true by (symmetry; apply Z.ltb_lt; simpl String.length; lia).
  rewrite Nat2Z.id. apply get_length_last.
Qed.

Lemma rstrip_commas s : exists n, s = PyStr.rstrip "," s ++ commas n.
Proof.
  induction s as [ | a r [n IH]]; [ exists O; reflexivity | ].
  simpl. destruct (PyStr.rstrip "," r) as [ | b r'] eqn:E.
  - simpl in IH. destruct (Ascii.eqb_spec a ","%char) as [-> | Hne].
    + exists (S n). simpl. now rewrite <- IH.
    + exists n. simpl. now rewrite <- IH.
  - exists n. simpl. simpl in IH. now rewrite <- IH.
Qed.

Lemma rstrip_no_trailing_comma s :
  PyStr.endswith_char (PyStr.rstrip "," s) "," = false.
Proof.
  unfold PyStr.endswith_char. rewrite index_last.
  induction s as [ | a r IH]; [ reflexivity | ].
  simpl. destruct (PyStr.rstrip "," r) as [ | b r'] eqn:E.
  - destruct (Ascii.eqb a ",") eqn:Ea; simpl; [ reflexivity | exact Ea ].
  - exact IH.
Qed.

Lemma rev_cons_split {A} (d l : list A) (x : A) :
  rev d = x :: l -> d = (rev l ++ [x])%list.
Proof.
  intros H. rewrite <- (rev_involutive d), H. reflexivity.
Qed.

Lemma pop_commas_loop fuel self :
  (List.length (_token_stack self) < fuel)%nat ->
  exists self' popped,
    while_ fuel (last <- _last_token ;; ret (opt_is last ","))
      (_pop_token None ;;; ret tt) self = (Return tt, self')
    /\ opt_is (OrderedDict.last_value (_token_stack self')) "," = false
    /\ _token_stack self = (_token_stack self' ++ popped)%list
    /\ Forall (fun kv => snd kv = ","%char) popped.
Proof.
  revert self. induction fuel as [ | fuel IH]; intros self Hlen; [ lia | ].
  simpl while_. rewrite bind_unfold.
  unfold _last_token at 1. rewrite bind_unfold. unfold read at 1, ret at 1.
  destruct (opt_is (OrderedDict.last_value (_token_stack self)) ",") eqn:Hc.
  - unfold OrderedDict.last_value in Hc.
    destruct (rev (_token_stack self)) as [ | [k v] l] eqn:R;
      [ discriminate | ].
    simpl in Hc. apply Ascii.eqb_eq in Hc. subst v.
    destruct (pop_token_last self (k, ","%char) (rev l)) as [Ho Hs].
    { unfold OrderedDict.popitem. now rewrite R. }
    rewrite (bind_unfold (_pop_token None ;;; ret tt)).
    rewrite (bind_unfold (_pop_token None)).
    destruct (_pop_token None self) as [o t]. simpl in Ho, Hs. subst o.
    unfold ret at 1.
    pose proof (rev_cons_split _ _ _ R) as Hd.
    destruct (IH t) as (self' & popped & Hw & Hl & Hst & Hall).
    { rewrite Hs. rewrite Hd in Hlen. rewrite length_app in Hlen.
      simpl in Hlen. lia. }
    exists self', (popped ++ [(k, ","%char)])%list.
    split; [ exact Hw | ]. split; [ exact Hl | ]. split.
    + rewrite Hd, <- Hs, Hst. now rewrite app_assoc.
    + apply Forall_app. split; [ exact Hall | ]. constructor; [ reflexivity | constructor ].
  - exists self, []. unfold ret. rewrite app_nil_r. auto.
Qed.

Lemma strip_trailing_separators_spec self tmp :
  _is_in_string self = false ->
  exists stripped n self' popped,
    strip_trailing_separators tmp self = (Return stripped, self')
    /\ tmp = stripped ++ commas n
    /\ PyStr.endswith_char stripped "," = false
    /\ _token_stack self = (_token_stack self' ++ popped)%list
    /\ Forall (fun kv => snd kv = ","%char) popped
    /\ opt_is (OrderedDict.last_value (_token_stack self')) "," = false.
Proof.
  intros Hs. destruct (rstrip_commas tmp) as [n Hn].
  destruct (pop_commas_loop (S (List.length (_token_stack self))) self)
    as (self' & popped & Hw & Hl & Hst & Hall); [ lia | ].
  exists (PyStr.rstrip "," tmp), n, self', popped.
  split; [ | auto using rstrip_no_trailing_comma ].
  unfold strip_trailing_separators. rewrite bind_unfold. unfold read at 1.
  rewrite Hs. cbn [negb]. rewrite bind_unfold.
  unfold pop_trailing_commas. rewrite bind_unfold. unfold read at 1.
  rewrite Hw. reflexivity.
Qed.

(** C8, as the claim has it, fails: with two spaces after the last comma
    the body keeps one of them, the comma is no longer the last character
    of the text that is stripped, and [fix] raises. *)
Lemma fix_comma_then_space_raises :
  result (py "  {'x':[1,2,  ") (new_Fixer [])
  = Raise (RuntimeError (could_not_fix "]}"))
  /\ result (py "  {'x':[1,2,  ") (new_Fixer [])
     <> Return (py "  {'x':[1,2]}").
Proof.
  split; [ vm_compute; reflexivity | ].
  vm_compute. intros H. discriminate H.
Qed.

(** C8, amended. Without white space after the last comma, [fix] returns
    the closed document and keeps the leading white space; in general,
    outside a string, the trailing separator strip removes exactly the
    commas that end the text and pops the comma entries that end the
    stack. *)
Theorem fix_strips_final_commas :
  (forall self : Fixer,
      result (py "  {'x':[1,2,") self = Return (py "  {'x':[1,2]}"))
  /\ (forall (self : Fixer) (tmp : string),
         _is_in_string self = false ->
         exists stripped n self' popped,
           strip_trailing_separators tmp self = (Return stripped, self')
           /\ tmp = stripped ++ commas n
           /\ PyStr.endswith_char stripped "," = false
           /\ _token_stack self = (_token_stack self' ++ popped)%list
           /\ Forall (fun kv => snd kv = ","%char) popped
           /\ opt_is (OrderedDict.last_value (_token_stack self')) ","
              = false).
Proof.
  split.
  - intros [shared own in_string object_position array_position].
    vm_compute. reflexivity.
  - exact strip_trailing_separators_spec.
Qed.

Lemma fix_strips_final_commas_witness :
  _is_in_string scanned_open_array = false
  /\ exists stripped n self' popped,
       strip_trailing_separators (py "{'x':[1,2,") scanned_open_array
       = (Return stripped, self')
       /\ py "{'x':[1,2," = stripped ++ commas n
       /\ PyStr.endswith_char stripped "," = false
       /\ _token_stack scanned_open_array = (_token_stack self' ++ popped)%list
       /\ Forall (fun kv => snd kv = ","%char) popped
       /\ opt_is (OrderedDict.last_value (_token_stack self')) "," = false.
Proof.
  assert (H : _is_in_string scanned_open_array = false) by reflexivity.
  refine (conj H _).
  exact (proj2 fix_strips_final_commas scanned_open_array
           (py "{'x':[1,2,") H).
Defined.

(** ** The success paths of [fix] *)

Lemma first_char_only body c :
  PyStr.index 0 body = Some c -> (PyStr.len body =? 1) = true ->
  body = String c EmptyString.
Proof.
  destruct body as [ | a [ | b r]]; intros H Hl.
  - discriminate H.
  - injection H as ->. reflexivity.
  - apply Z.eqb_eq in Hl. unfold PyStr.len in Hl.
    simpl String.length in Hl. lia.
Qed.

Lemma maybe_literal_result body self r :
  fst (_maybe_literal body self) = Return (Some r) -> _is_valid_json r = true.
Proof.
  unfold _maybe_literal, getitem.
  destruct (PyStr.index 0 body) as [c | ]; [ | discriminate ].
  rewrite bind_unfold. unfold ret at 1.
  destruct (negb (PyStr.mem c "tfn")); simpl; [ discriminate | ].
  intros H. injection H as H.
  repeat match type of H with
         | (if ?b then _ else _) = _ => destruct b
         end;
    try discriminate H; injection H as <-; reflexivity.
Qed.

Lemma pad_string_result body self r :
  fst (_pad_string body self) = Return (Some r) ->
  r = body ++ PyStr.of_char dquote.
Proof.
  unfold _pad_string, getitem.
  destruct (PyStr.index (-1) body) as [c | ]; [ | discriminate ].
  rewrite bind_unfold. unfold ret at 1.
  destruct (_ || _); simpl; intros H; [ | discriminate ].
  now injection H as <-.
Qed.

Lemma quick_fix_result body self r :
  fst (_quick_fix body self) = Return (Some r) ->
  _is_valid_json r = true
  \/ (PyStr.index 0 body = Some dquote /\ r = body ++ PyStr.of_char dquote).
Proof.
  unfold _quick_fix, getitem.
  destruct (PyStr.index 0 body) as [c | ] eqn:Hc; [ | discriminate ].
  rewrite bind_unfold. unfold ret at 1.
  assert (Hother :
    fst ((if negb (Ascii.eqb c dquote) then _maybe_literal body
          else _pad_string body) self) = Return (Some r) ->
    _is_valid_json r = true
    \/ (Some c = Some dquote /\ r = body ++ PyStr.of_char dquote)).
  { destruct (Ascii.eqb_spec c dquote) as [-> | Hne]; simpl; intros H.
    - right. split; [ reflexivity | eapply pad_string_result; eauto ].
    - left. eapply maybe_literal_result; eauto. }
  destruct (_complementary_pairs c) as [p | ] eqn:Hp; [ | exact Hother ].
  destruct (PyStr.len body =? 1) eqn:Hl; [ | exact Hother ].
  simpl. intros H. injection H as <-. left.
  rewrite (first_char_only body c Hc Hl).
  unfold _complementary_pairs in Hp.
  destruct (Ascii.eqb_spec c "{") as [-> | _];
    [ injection Hp as <-; reflexivity | ].
  destruct (Ascii.eqb_spec c "[") as [-> | _];
    [ injection Hp as <-; reflexivity | ].
  destruct (Ascii.eqb_spec c dquote) as [-> | _];
    [ injection Hp as <-; reflexivity | discriminate ].
Qed.

Lemma fix_or_fail_result body self fixed self' :
  _fix_or_fail body self = (Return fixed, self') ->
  _is_valid_json fixed = true.
Proof.
  unfold _fix_or_fail. rewrite bind_unfold.
  destruct (_pad body self) as [[tmp | e] t]; [ | discriminate ].
  destruct (_is_valid_json tmp) eqn:Hv; unfold ret, raise; intros H;
    [ | discriminate ].
  injection H as <- _. exact Hv.
Qed.

Lemma len_zero body : (PyStr.len body =? 0) = true -> body = EmptyString.
Proof.
  destruct body; [ reflexivity | ]. unfold PyStr.len. simpl String.length.
  intros H. apply Z.eqb_eq in H. lia.
Qed.

Lemma fix_success_cases json_string self r :
  result json_string self = Return r ->
  let '(head, body, tail) := _trim json_string in
  (body = EmptyString /\ r = EmptyString)
  \/ _is_valid_json r = true
  \/ (PyStr.index 0 body = Some dquote /\ r = body ++ PyStr.of_char dquote)
  \/ (exists padded,
         _is_valid_json padded = true /\ r = head ++ padded ++ tail).
Proof.
  unfold result, fix_. destruct (_trim json_string) as [[head body] tail].
  destruct (PyStr.len body =? 0) eqn:Hl.
  - simpl. intros H. injection H as <-. left.
    split; apply len_zero; exact Hl.
  - destruct (_is_valid_json body) eqn:Hv.
    + simpl. intros H. injection H as <-. auto.
    + cbn [orb]. rewrite bind_unfold.
      destruct (_quick_fix body self) as [[[q | ] | e] t] eqn:Q;
        [ | | discriminate ].
      * simpl. intros H. injection H as <-.
        destruct (quick_fix_result body self q) as [Hq | Hq];
          [ rewrite Q; reflexivity | auto | auto ].
      * intros H. right. right. right.
        apply bind_Return in H. destruct H as (_ & t1 & _ & H).
        apply bind_Return in H. destruct H as (_ & t2 & _ & H).
        apply bind_Return in H. destruct H as (fixed & t3 & Hf & H).
        simpl in H. injection H as <-.
        exists fixed. split; [ | reflexivity ].
        eapply fix_or_fail_result; eauto.
Qed.




(** ** Runs of [fix] that leave the documented behaviour *)

(** C3 at the failing inputs: a valid document loses its surrounding white
    space, and a valid document with white space inside is rewritten. *)
Theorem fix_changes_valid_input :
  _is_valid_json " 1" = true
  /\ result " 1" (new_Fixer []) = Return "1"
  /\ _is_valid_json (py "{'a': 1}") = true
  /\ result (py "{'a': 1}") (new_Fixer []) = Return (py "{'a':null} 1}")
  /\ _is_valid_json (py "{'a':null} 1}") = false.
Proof. repeat split; vm_compute; reflexivity. Qed.

(** C4 at the failing inputs: no truncated literal is completed; [fix]
    raises on each of them, because [_maybe_literal] asks whether the text
    starts with the literal and not whether the literal starts with the
    text. *)
Theorem fix_literal_prefix_raises :
  Forall (fun p => result p (new_Fixer [])
                   = Raise (RuntimeError (could_not_fix EmptyString)))
         literal_prefixes
  /\ fst (_maybe_literal "tru" (new_Fixer [])) = Return None.
Proof.
  split; [ | reflexivity ].
  repeat constructor; vm_compute; reflexivity.
Qed.

(** C5 at the failing input: on a lone comma the padder strips the text to
    the empty text and [_object_needs_padding] indexes it. *)
Theorem fix_lone_comma_index_error :
  forall self : Fixer, result "," self = Raise IndexError.
Proof.
  intros [shared own in_string object_position array_position].
  vm_compute. reflexivity.
Qed.

(** C6 at the failing inputs: the white space around an already valid
    body, or around a body the quick fix repairs, is not put back; only
    the path through the scanner puts it back. *)
Theorem fix_drops_surrounding_whitespace :
  let wrap (x : string) :=
    String " " (String TAB x) ++ String LF EmptyString in
  _is_valid_json "1" = true
  /\ result (wrap "1") (new_Fixer []) = Return "1"
  /\ result "{" (new_Fixer []) = Return "{}"
  /\ result (wrap "{") (new_Fixer []) = Return "{}"
  /\ result (wrap "[1") (new_Fixer []) = Return (wrap "[1]").
Proof. repeat split; vm_compute; reflexivity. Qed.

(** C9 at the failing input: the quick fix returns the bare literal for a
    body that starts with it, and the characters after it are gone. *)
Theorem fix_quick_literal_deletes :
  _is_valid_json "truex" = false
  /\ result "truex" (new_Fixer []) = Return "true"
  /\ fst (_maybe_literal "truex" (new_Fixer [])) = Return (Some "true").
Proof. repeat split; vm_compute; reflexivity. Qed.

(** * Further properties of the code *)

(** ** More on the trimmer *)

Lemma find_app_first {A} (f : A -> bool) (l1 l2 : list A) :
  find f (l1 ++ l2)%list
  = match find f l1 with
    | Some x => Some x
    | None => find f l2
    end.
Proof.
  induction l1 as [ | a l1 IH]; simpl; [ reflexivity | ].
  destruct (f a); [ reflexivity | exact IH ].
Qed.

Lemma cut_last_none p s :
  snd (cut_last p s) = EmptyString -> cut_last p s = (s, EmptyString).
Proof.
  induction s as [ | c r IH]; simpl; [ reflexivity | ].
  destruct (cut_last p r) as [x [ | d y]]; simpl in *.
  - destruct (p c); simpl; [ discriminate | reflexivity ].
  - discriminate.
Qed.

Lemma drop_at i r a :
  String.get i r = Some a ->
  PyStr.drop (Nat.min i (String.length r)) r
  = String a (PyStr.drop (S i) r).
Proof.
  revert r. induction i as [ | i IH]; intros [ | c r]; simpl;
    try discriminate.
  - intros H. injection H as ->. reflexivity.
  - intros H. apply IH in H. exact H.
Qed.

Lemma split_at_backward p s : split_at p s true = cut_last p s.
Proof.
  unfold split_at. induction s as [ | c r IH]; [ reflexivity | ].
  simpl String.length. simpl seq. simpl rev.
  rewrite find_app_first, <- seq_shift, <- map_rev, find_map.
  simpl cut_last. rewrite <- IH.
  destruct (find _ (rev (seq 0 (String.length r)))) as [i | ] eqn:F;
    simpl option_map.
  - apply find_some in F. destruct F as [_ F]. simpl in F.
    destruct (String.get i r) as [a | ] eqn:G; [ | discriminate ].
    unfold PyStr.slice_to, PyStr.slice_from.
    rewrite !bound_of_nat. simpl String.length.
    rewrite <- Nat.succ_min_distr. simpl PyStr.take. simpl PyStr.drop.
    rewrite (drop_at i r a G). reflexivity.
  - simpl find. destruct (p c); reflexivity.
Qed.

Lemma cut_last_spec p s :
  match snd (cut_last p s) with
  | EmptyString =>
      fst (cut_last p s) = s /\ all_chars (fun c => negb (p c)) s = true
  | String c t => p c = true /\ all_chars (fun c => negb (p c)) t = true
  end.
Proof.
  induction s as [ | c r IH]; simpl; [ auto | ].
  destruct (cut_last p r) as [x [ | d y]]; simpl in *.
  - destruct IH as [-> IH]. destruct (p c) eqn:E; simpl; rewrite ?E; auto.
  - exact IH.
Qed.

(** X1. [split_at] without [from_right] cuts the text in two at the first
    character that satisfies the predicate: the parts make up the text,
    no character of the first part satisfies the predicate, and the
    second part is empty or starts with a character that does. *)
Theorem split_at_first_match :
  forall (p : ascii -> bool) (l : string),
    let '(x, y) := split_at p l false in
    x ++ y = l
    /\ all_chars (fun c => negb (p c)) x = true
    /\ match y with
       | EmptyString => True
       | String c _ => p c = true
       end.
Proof.
  intros p l. pose proof (split_at_concat p l false) as C.
  pose proof (cut_first_spec p l) as [H1 H2].
  rewrite <- split_at_forward in H1, H2.
  destruct (split_at p l false) as [x y]. simpl in *. auto.
Qed.

(** X2. [split_at] with [from_right] cuts the text at the last character
    that satisfies the predicate: the second part starts with that
    character and no later character satisfies the predicate; when no
    character of the text does, the result is the text and the empty
    text. *)
Theorem split_at_last_match :
  forall (p : ascii -> bool) (l : string),
    let '(x, y) := split_at p l true in
    x ++ y = l
    /\ match y with
       | EmptyString => x = l /\ all_chars (fun c => negb (p c)) l = true
       | String c t => p c = true /\ all_chars (fun c => negb (p c)) t = true
       end.
Proof.
  intros p l. pose proof (split_at_concat p l true) as C.
  pose proof (cut_last_spec p l) as H.
  rewrite <- split_at_backward in H.
  destruct (split_at p l true) as [x y]. simpl in *. auto.
Qed.

Lemma cut_first_all p s :
  all_chars (fun c => negb (p c)) s = true -> cut_first p s = (s, EmptyString).
Proof.
  induction s as [ | c r IH]; simpl; [ reflexivity | ].
  destruct (p c); simpl; [ discriminate | ].
  intros H. rewrite (IH H). reflexivity.
Qed.

Lemma all_chars_ext p q s :
  (forall c, p c = q c) -> all_chars p s = all_chars q s.
Proof.
  intros H. induction s as [ | c r IH]; simpl; [ reflexivity | ].
  now rewrite H, IH.
Qed.

(** X3. The three parts of [_trim] make up the text; the first is white
    space only; what follows it is empty or starts with a character that
    is not white space; and the third part is empty (then the body has no
    white space at all) or is one white space character followed by
    characters that are not white space. *)
Theorem trim_shape :
  forall s : string,
    let '(leading, body, trailing) := _trim s in
    leading ++ body ++ trailing = s
    /\ all_chars in_whitespace leading = true
    /\ match body ++ trailing with
       | EmptyString => True
       | String c _ => in_whitespace c = false
       end
    /\ match trailing with
       | EmptyString => all_chars (fun c => negb (in_whitespace c)) body = true
       | String c t =>
           in_whitespace c = true
           /\ all_chars (fun c => negb (in_whitespace c)) t = true
       end.
Proof.
  intros s. pose proof (trim_parts s) as H. unfold _trim in *.
  destruct (split_at _ s false) as [leading rest].
  pose proof (cut_last_spec in_whitespace rest) as L2.
  rewrite <- split_at_backward in L2.
  change (fun c => in_whitespace c) with in_whitespace in *.
  destruct (split_at in_whitespace rest true) as [body trailing].
  destruct H as (H1 & H2 & H3). simpl in L2.
  repeat split; auto.
  destruct trailing as [ | c t]; [ | exact L2 ].
  destruct L2 as [-> L2]. exact L2.
Qed.

Lemma trim_all_whitespace s :
  all_chars in_whitespace s = true ->
  _trim s = (s, EmptyString, EmptyString).
Proof.
  intros H. unfold _trim. rewrite split_at_forward, cut_first_all.
  - reflexivity.
  - rewrite <- H. apply all_chars_ext. intros c. apply negb_involutive.
Qed.

(** X4. A text of white space only is all leading white space: the body
    and the third part are empty. *)
Theorem trim_whitespace_only :
  forall s : string,
    all_chars in_whitespace s = true ->
    _trim s = (s, EmptyString, EmptyString).
Proof. exact trim_all_whitespace. Qed.

Lemma trim_whitespace_only_witness :
  all_chars in_whitespace (String " " (String TAB (String LF EmptyString)))
  = true
  /\ _trim (String " " (String TAB (String LF EmptyString)))
     = (String " " (String TAB (String LF EmptyString)),
        EmptyString, EmptyString).
Proof.
  assert (H : all_chars in_whitespace
                (String " " (String TAB (String LF EmptyString))) = true)
    by reflexivity.
  refine (conj H _). exact (trim_whitespace_only _ H).
Defined.

Lemma trim_no_whitespace s :
  all_chars (fun c => negb (in_whitespace c)) s = true ->
  _trim s = (EmptyString, s, EmptyString).
Proof.
  intros H. unfold _trim. rewrite split_at_forward.
  assert (cut_first (fun c => negb (in_whitespace c)) s = (EmptyString, s))
    as ->.
  { destruct s as [ | c r]; [ reflexivity | ]. simpl in *.
    apply andb_prop in H. destruct H as [-> _]. reflexivity. }
  rewrite split_at_backward.
  pose proof (cut_last_spec in_whitespace s) as L.
  change (fun c => in_whitespace c) with in_whitespace.
  destruct (cut_last in_whitespace s) as [x [ | d y]] eqn:E; simpl in L.
  - destruct L as [-> _]. reflexivity.
  - exfalso. destruct L as [L _].
    assert (all_chars (fun c => negb (in_whitespace c)) (x ++ String d y)
            = true) as A.
    { pose proof (split_at_concat in_whitespace s true) as C.
      rewrite split_at_backward, E in C. simpl in C. now rewrite C. }
    clear - A L. induction x as [ | a x IH]; simpl in A.
    + rewrite L in A. discriminate.
    + apply andb_prop in A. destruct A as [_ A]. auto.
Qed.

(** X5. On a text of white space only, the empty text included, [fix]
    returns the empty text, whatever the state of the object. *)
Theorem fix_whitespace_only :
  forall (s : string) (self : Fixer),
    all_chars in_whitespace s = true -> result s self = Return EmptyString.
Proof.
  intros s self H. unfold result, fix_.
  rewrite (trim_all_whitespace s H). reflexivity.
Qed.

Lemma fix_whitespace_only_witness :
  all_chars in_whitespace (String " " (String TAB (String LF EmptyString)))
  = true
  /\ result (String " " (String TAB (String LF EmptyString))) (new_Fixer [])
     = Return EmptyString.
Proof.
  assert (H : all_chars in_whitespace
                (String " " (String TAB (String LF EmptyString))) = true)
    by reflexivity.
  refine (conj H _). exact (fix_whitespace_only _ (new_Fixer []) H).
Defined.

(** X6. A text without white space that parses as valid JSON is returned
    by [fix] as it is. *)
Theorem fix_valid_without_whitespace :
  forall (s : string) (self : Fixer),
    all_chars (fun c => negb (in_whitespace c)) s = true ->
    _is_valid_json s = true ->
    result s self = Return s.
Proof.
  intros s self H V. unfold result, fix_.
  rewrite (trim_no_whitespace s H), V, orb_true_r. reflexivity.
Qed.

Lemma fix_valid_without_whitespace_witness :
  all_chars (fun c => negb (in_whitespace c)) (py "{'a':[1,true]}") = true
  /\ _is_valid_json (py "{'a':[1,true]}") = true
  /\ result (py "{'a':[1,true]}") (new_Fixer []) = Return (py "{'a':[1,true]}").
Proof.
  assert (H : all_chars (fun c => negb (in_whitespace c))
                (py "{'a':[1,true]}") = true) by reflexivity.
  assert (V : _is_valid_json (py "{'a':[1,true]}") = true) by reflexivity.
  refine (conj H (conj V _)).
  exact (fix_valid_without_whitespace _ (new_Fixer []) H V).
Defined.

Lemma fix_unfold json_string :
  fix_ json_string
  = let '(head, body, tail) := _trim json_string in
    if (PyStr.len body =? 0) || _is_valid_json body then ret body
    else
      quick_fixed_json <- _quick_fix body ;;
      match quick_fixed_json with
      | Some fixed => ret fixed
      | None =>
          _reset ;;; scan body ;;;
          fixed <- _fix_or_fail body ;;
          ret (head ++ fixed ++ tail)
      end.
Proof. reflexivity. Qed.

(** ** The scanner *)

Lemma stack_observe prev char i next self :
  fst (_stack prev char i next self) = Return tt
  /\ observe (snd (_stack prev char i next self))
     = stack_effect prev char i (observe self).
Proof.
  destruct self as [c own b p q].
  unfold _stack, _maybe_string, _last_token, _pop_token, _update_position,
    stack_effect, observe.
  unfold bind, read, ret, raise, assign_is_in_string, mutate_token_stack,
    assign_last_object_position, assign_last_array_position, _token_stack,
    OrderedDict.last_value, OrderedDict.popitem.
  cbn [own_token_stack _is_in_string class_token_stack
       _last_object_position _last_array_position].
  destruct (negb (opt_is prev backslash) && Ascii.eqb char dquote);
    destruct b; destruct own as [d | ];
    cbn [negb andb fst snd own_token_stack _is_in_string class_token_stack
         _last_object_position _last_array_position].
  all: try (destruct (rev d) as [ | [k l] N] eqn:R);
       try (destruct (rev c) as [ | [k l] N] eqn:R).
  all: cbn [opt_is negb andb fst snd own_token_stack _is_in_string
            class_token_stack _last_object_position _last_array_position].
  all: repeat match goal with
         | |- context [if ?x then _ else _] =>
             destruct x;
             cbn [opt_is negb andb fst snd own_token_stack _is_in_string
                  class_token_stack _last_object_position
                  _last_array_position]
         end.
  all: unfold _pop_token, bind, ret, mutate_token_stack;
       cbn [fst snd own_token_stack _is_in_string class_token_stack
            _last_object_position _last_array_position];
       rewrite ?R; split; reflexivity.
Qed.

Lemma get_in_range n s :
  (n < String.length s)%nat -> exists c, String.get n s = Some c.
Proof.
  revert n. induction s as [ | a r IH]; intros n H; simpl in H; [ lia | ].
  destruct n as [ | n]; simpl; [ eauto | ]. apply IH. lia.
Qed.

Lemma index_in_range body i :
  0 <= i < PyStr.len body -> exists c, PyStr.index i body = Some c.
Proof.
  intros H. unfold PyStr.index.
  replace (i <? 0) with false by (symmetry; apply Z.ltb_ge; lia).
  replace (0 <=? i) with true by (symmetry; apply Z.leb_le; lia).
  replace (i <? PyStr.len body) with true by (symmetry; apply Z.ltb_lt; lia).
  simpl. apply get_in_range. unfold PyStr.len in H. lia.
Qed.

Lemma getitem_in_range body i self :
  0 <= i < PyStr.len body ->
  exists c, PyStr.index i body = Some c
            /\ getitem body i self = (Return c, self).
Proof.
  intros H. destruct (index_in_range body i H) as [c Hc].
  exists c. unfold getitem. rewrite Hc. auto.
Qed.

Lemma scan_char_observe body i self :
  0 <= i < PyStr.len body ->
  exists char,
    PyStr.index i body = Some char
    /\ fst (scan_char body i self) = Return tt
    /\ observe (snd (scan_char body i self))
       = if in_whitespace char then observe self
         else stack_effect (prev_of body i) char i (observe self).
Proof.
  intros H. destruct (getitem_in_range body i self H) as (char & Hc & Hg).
  exists char. split; [ exact Hc | ].
  unfold scan_char. rewrite bind_unfold, Hg.
  assert ((if i =? 0 then ret None
           else c <- getitem body (i - 1) ;; ret (Some c)) self
          = (Return (prev_of body i), self)) as Hp.
  { unfold prev_of. destruct (i =? 0) eqn:E; [ reflexivity | ].
    apply Z.eqb_neq in E.
    destruct (getitem_in_range body (i - 1) self) as (c & Hi & Hgi);
      [ lia | ].
    rewrite bind_unfold, Hgi, Hi. reflexivity. }
  assert (exists next,
    (if i + 1 >=? PyStr.len body then ret None
     else c <- getitem body (i + 1) ;; ret (Some c)) self
    = (Return next, self)) as (next & Hn).
  { destruct (i + 1 >=? PyStr.len body) eqn:E; [ eexists; reflexivity | ].
    rewrite Z.geb_leb in E. apply Z.leb_gt in E.
    destruct (getitem_in_range body (i + 1) self) as (c & Hi & Hgi);
      [ lia | ].
    rewrite bind_unfold, Hgi. eexists; reflexivity. }
  rewrite bind_unfold, Hp, bind_unfold, Hn.
  destruct (in_whitespace char); simpl negb; cbv iota.
  - split; reflexivity.
  - apply stack_observe.
Qed.

(** A loop over [seq a n] whose rounds return normally and carry [P]
    from one index to the next. *)
Lemma for_each_seq (P : nat -> Fixer -> Prop) (body : Z -> M unit) n :
  forall a self,
    P a self ->
    (forall i self',
        (a <= i < a + n)%nat -> P i self' ->
        fst (body (Z.of_nat i) self') = Return tt
        /\ P (S i) (snd (body (Z.of_nat i) self'))) ->
    fst (for_each (seq a n) body self) = Return tt
    /\ P (a + n)%nat (snd (for_each (seq a n) body self)).
Proof.
  induction n as [ | n IH]; intros a self Ha Hstep; simpl.
  - rewrite Nat.add_0_r. auto.
  - rewrite bind_unfold.
    destruct (Hstep a self) as [Ho Hp]; [ lia | exact Ha | ].
    destruct (body (Z.of_nat a) self) as [o t]. simpl in Ho, Hp. subst o.
    replace (a + S n)%nat with (S a + n)%nat by lia.
    apply IH; [ exact Hp | ].
    intros i self' Hi. apply Hstep. lia.
Qed.

Lemma scan_returns body self : fst (scan body self) = Return tt.
Proof.
  unfold scan, for_range.
  apply (for_each_seq (fun _ _ => True) (scan_char body)
           (String.length body) 0%nat self I).
  intros i self' Hi _.
  destruct (scan_char_observe body (Z.of_nat i) self') as (c & _ & Ho & _).
  - unfold PyStr.len. lia.
  - auto.
Qed.

(** X7. The scanning loop of [fix] never raises, whatever the body and
    whatever state the object is in. *)
Theorem scan_never_raises :
  forall (body : string) (self : Fixer), fst (scan body self) = Return tt.
Proof. exact scan_returns. Qed.

(** *** The dictionary, seen from its newest entry *)

Lemma below_mono n m N : below n N -> n <= m -> below m N.
Proof. destruct N as [ | [k v] N]; simpl; intuition lia. Qed.

Lemma below_keys n N : below n N -> Forall (fun kv => fst kv < n) N.
Proof.
  revert n. induction N as [ | [k v] N IH]; intros n H; constructor.
  - simpl in *. lia.
  - destruct H as [H1 H2]. apply IH in H2.
    eapply Forall_impl; [ | exact H2 ]. simpl. intros. lia.
Qed.

Lemma set_fresh i v d :
  Forall (fun kv => fst kv <> i) d ->
  OrderedDict.set i v d = (d ++ [(i, v)])%list.
Proof.
  induction d as [ | [k l] d IH]; intros H; simpl; [ reflexivity | ].
  inversion H as [ | ? ? Hk Hd]; subst. simpl in Hk.
  destruct (k =? i) eqn:E; [ apply Z.eqb_eq in E; contradiction | ].
  now rewrite IH.
Qed.

Lemma rev_set_push i v d :
  below i (rev d) -> rev (OrderedDict.set i v d) = (i, v) :: rev d.
Proof.
  intros H. rewrite set_fresh.
  - rewrite rev_app_distr. reflexivity.
  - apply below_keys in H. apply Forall_rev in H. rewrite rev_involutive in H.
    eapply Forall_impl; [ | exact H ]. simpl. intros. lia.
Qed.

Lemma rev_del_last_of tok d :
  rev (OrderedDict.del_last_of tok d) = OrderedDict.del_first tok (rev d).
Proof. unfold OrderedDict.del_last_of. apply rev_involutive. Qed.

Lemma del_first_below tok n N :
  below n N -> below n (OrderedDict.del_first tok N).
Proof.
  revert n. induction N as [ | [k v] N IH]; intros n H; simpl; [ exact I | ].
  destruct H as [H1 H2]. destruct (Ascii.eqb v tok).
  - eapply below_mono; [ exact H2 | lia ].
  - simpl. auto.
Qed.

Lemma del_first_Forall {P : Z * ascii -> Prop} tok N :
  Forall P N -> Forall P (OrderedDict.del_first tok N).
Proof.
  induction 1 as [ | [k v] N Hx HN IH]; simpl; [ constructor | ].
  destruct (Ascii.eqb v tok); [ exact HN | constructor; assumption ].
Qed.

Lemma position_mono body n m opener p :
  position_ok body n opener p -> n <= m -> position_ok body m opener p.
Proof. unfold position_ok. intuition lia. Qed.

Lemma scan_inv_mono body n m v :
  scan_inv body n v -> n <= m -> scan_inv body m v.
Proof.
  destruct v as [[[d b] p] q]. intros (H1 & H2 & H3 & H4 & H5) Hle.
  repeat split; eauto using below_mono, position_mono.
Qed.

Lemma mem_not_quote char :
  PyStr.mem char ",:[{" = true -> char <> dquote /\ is_token char = true.
Proof.
  intros H. split.
  - intros ->. discriminate H.
  - unfold is_token. simpl in *.
    destruct (Ascii.eqb char ","), (Ascii.eqb char ":"),
      (Ascii.eqb char "["), (Ascii.eqb char "{"); simpl in *;
      try reflexivity; try discriminate;
      rewrite ?orb_true_r; reflexivity.
Qed.

Lemma scan_inv_step body i v prev char :
  0 <= i ->
  PyStr.index i body = Some char ->
  scan_inv body i v ->
  scan_inv body (i + 1) (stack_effect prev char i v).
Proof.
  intros Hi Hc. destruct v as [[[d b] p] q].
  intros (Hb & Hq & Hm & Hp & Hq').
  unfold stack_effect.
  set (t := negb (opt_is prev backslash) && Ascii.eqb char dquote).
  assert (Ht : t = true -> char = dquote).
  { unfold t. intros H. apply andb_prop in H. destruct H as [_ H].
    now apply Ascii.eqb_eq. }
  assert (Hquote : forall k older,
             rev d = (k, dquote) :: older ->
             opt_is (OrderedDict.last_value d) dquote = true).
  { intros k older R. unfold OrderedDict.last_value. rewrite R.
    apply Ascii.eqb_refl. }
  assert (Hfree : quote_free (rev d) ->
                  opt_is (OrderedDict.last_value d) dquote = false).
  { intros F. unfold OrderedDict.last_value.
    destruct (rev d) as [ | [k l] N]; [ reflexivity | ].
    inversion F; subst. simpl in *. now apply Ascii.eqb_neq. }
  destruct (if t then negb b else b) eqn:Eb1.
  - (* inside a string after this character *)
    cbn [andb].
    assert (position_ok body (i + 1) "{" p /\ position_ok body (i + 1) "[" q)
      as [Hp1 Hq1] by (split; eapply position_mono; eauto; lia).
    destruct b.
    + (* it was inside already: the quote entry is on top *)
      destruct Hq as (k & older & R & F).
      rewrite (Hquote k older R). cbn [negb].
      repeat split; auto.
      * eapply below_mono; eauto. lia.
      * exists k, older. auto.
    + (* an opening quote *)
      destruct t; [ | discriminate ]. rewrite (Ht eq_refl) in *.
      rewrite (Hfree Hq). cbn [negb]. unfold scan_inv.
      rewrite rev_set_push by exact Hb.
      repeat split; auto.
      * simpl. lia.
      * exists i, (rev d). auto.
      * constructor; [ simpl; auto | exact Hm ].
  - (* outside a string after this character *)
    cbn [andb].
    set (d2 := match OrderedDict.last_value d with
               | Some l => _
               | None => d
               end).
    assert (H2 : below i (rev d2) /\ quote_free (rev d2)
                 /\ mirrors body (rev d2)).
    { unfold d2, OrderedDict.last_value, OrderedDict.popitem.
      destruct b.
      - (* a closing quote pops the quote entry *)
        destruct t; [ | discriminate ]. rewrite (Ht eq_refl).
        destruct Hq as (k & older & R & F). rewrite R in *.
        simpl. rewrite rev_involutive.
        destruct Hb as [Hk Hb]. inversion Hm; subst.
        repeat split; auto. eapply below_mono; eauto. lia.
      - destruct (rev d) as [ | [k l] N] eqn:R; cbv beta iota.
        + rewrite R. auto.
        + destruct (PyStr.mem l _ && PyStr.mem char _); cbv beta iota.
          * rewrite rev_involutive.
            destruct Hb as [Hk Hb]. inversion Hm; subst. inversion Hq; subst.
            repeat split; auto. eapply below_mono; eauto. lia.
          * rewrite R. auto. }
    clearbody d2. destruct H2 as (Hb2 & Hq2 & Hm2).
    set (d3 := if PyStr.mem char ",:[{" then OrderedDict.set i char d2
               else d2).
    assert (H3 : below (i + 1) (rev d3) /\ quote_free (rev d3)
                 /\ mirrors body (rev d3)).
    { unfold d3. destruct (PyStr.mem char ",:[{") eqn:E.
      - apply mem_not_quote in E. destruct E as [E1 E2].
        rewrite rev_set_push by exact Hb2.
        repeat split; auto.
        + simpl. lia.
        + constructor; auto.
        + constructor; auto.
      - repeat split; auto. eapply below_mono; eauto. lia. }
    clearbody d3. destruct H3 as (Hb3 & Hq3 & Hm3).
    assert (position_ok body (i + 1) "{" p /\ position_ok body (i + 1) "[" q)
      as [Hp1 Hq1] by (split; eapply position_mono; eauto; lia).
    assert (forall opener, position_ok body (i + 1) opener (-1)) as Hs
      by (left; reflexivity).
    destruct (Ascii.eqb_spec char "{") as [-> | _].
    { repeat split; auto. right. split; [ lia | exact Hc ]. }
    destruct (Ascii.eqb_spec char "}") as [-> | _].
    { unfold scan_inv. rewrite rev_del_last_of. repeat split; auto.
      - now apply del_first_below.
      - now apply del_first_Forall.
      - now apply del_first_Forall. }
    destruct (Ascii.eqb_spec char "[") as [-> | _].
    { repeat split; auto. right. split; [ lia | exact Hc ]. }
    destruct (Ascii.eqb_spec char "]") as [-> | _].
    { unfold scan_inv. rewrite rev_del_last_of. repeat split; auto.
      - now apply del_first_below.
      - now apply del_first_Forall.
      - now apply del_first_Forall. }
    repeat split; auto.
Qed.

Lemma scan_keeps_inv body self :
  scan_inv body 0 (observe self) ->
  scan_inv body (PyStr.len body) (observe (snd (scan body self))).
Proof.
  intros H0. unfold scan, for_range.
  destruct (for_each_seq
              (fun i self' => scan_inv body (Z.of_nat i) (observe self'))
              (scan_char body) (String.length body) 0%nat self H0)
    as [_ H]; [ | exact H ].
  intros i self' Hi Hinv.
  destruct (scan_char_observe body (Z.of_nat i) self') as (c & Hc & Ho & Hv).
  { unfold PyStr.len. lia. }
  split; [ exact Ho | ]. rewrite Hv, Nat2Z.inj_succ, <- Z.add_1_r.
  destruct (in_whitespace c).
  - eapply scan_inv_mono; [ exact Hinv | lia ].
  - apply scan_inv_step; [ lia | exact Hc | exact Hinv ].
Qed.

Lemma scanned_inv body self :
  scan_inv body (PyStr.len body) (observe (scanned body self)).
Proof.
  apply scan_keeps_inv. unfold observe, scan_inv, position_ok. simpl.
  repeat split; auto; constructor.
Qed.

Lemma sorted_snoc (l : list Z) (x : Z) :
  StronglySorted Z.lt l -> Forall (fun a => a < x) l ->
  StronglySorted Z.lt (l ++ [x])%list.
Proof.
  induction 1 as [ | a l Hl IH Ha]; intros Hx; simpl.
  - repeat constructor.
  - inversion Hx; subst. constructor; [ auto | ].
    apply Forall_app. split; [ exact Ha | repeat constructor; assumption ].
Qed.

Lemma below_sorted n d :
  below n (rev d) -> StronglySorted Z.lt (map fst d).
Proof.
  revert n. induction d as [ | [k v] d IH] using rev_ind; intros n H.
  - constructor.
  - rewrite rev_app_distr in H. simpl in H. destruct H as [Hk H].
    rewrite map_app. simpl. apply sorted_snoc; [ eapply IH; eauto | ].
    apply below_keys in H. apply Forall_rev in H. rewrite rev_involutive in H.
    clear - H. induction H; simpl; constructor; auto.
Qed.

(** X8. When the scan ends inside a string, the newest entry of the token
    stack is a quote and no other entry is; when it ends outside a string,
    the stack holds no quote entry: at most one quote entry at any time. *)
Theorem scan_one_quote_entry :
  forall (body : string) (self : Fixer),
    let d := _token_stack (scanned body self) in
    if _is_in_string (scanned body self)
    then exists older k,
           d = (older ++ [(k, dquote)])%list /\ quote_free older
    else quote_free d.
Proof.
  intros body self. pose proof (scanned_inv body self) as H.
  unfold observe, scan_inv in H. destruct H as (_ & H & _).
  unfold quotes_ok in H. cbv zeta.
  destruct (_is_in_string (scanned body self)).
  - destruct H as (k & older & R & F). exists (rev older), k. split.
    + rewrite <- (rev_involutive (_token_stack _)), R. reflexivity.
    + apply Forall_rev. exact F.
  - apply Forall_rev in H. rewrite rev_involutive in H. exact H.
Qed.

(** X9. After the scan, every entry of the token stack is one of the five
    tokens and is keyed by a position of the body where that token
    stands, and the entries are in strictly increasing order of
    position. *)
Theorem scan_entries_mirror_body :
  forall (body : string) (self : Fixer),
    let d := _token_stack (scanned body self) in
    Forall (fun kv => PyStr.index (fst kv) body = Some (snd kv)
                      /\ is_token (snd kv) = true) d
    /\ StronglySorted Z.lt (map fst d).
Proof.
  intros body self. pose proof (scanned_inv body self) as H.
  unfold observe, scan_inv in H. destruct H as (Hb & _ & Hm & _).
  split.
  - apply Forall_rev in Hm. rewrite rev_involutive in Hm. exact Hm.
  - eapply below_sorted. exact Hb.
Qed.

(** X10. After the scan, each of the two recorded positions is the
    sentinel [-1] or an index of the body that holds the opening brace
    (for the object position) or the opening bracket (for the array
    position). *)
Theorem scan_positions :
  forall (body : string) (self : Fixer),
    let p := _last_object_position (scanned body self) in
    let q := _last_array_position (scanned body self) in
    (p = -1 \/ (0 <= p < PyStr.len body /\ PyStr.index p body = Some "{"%char))
    /\ (q = -1
        \/ (0 <= q < PyStr.len body /\ PyStr.index q body = Some "["%char)).
Proof.
  intros body self. pose proof (scanned_inv body self) as H.
  unfold observe, scan_inv in H. destruct H as (_ & _ & _ & Hp & Hq).
  split; assumption.
Qed.

Lemma stack_effect_flag prev char i d b p q :
  snd (fst (fst (stack_effect prev char i (d, b, p, q))))
  = if negb (opt_is prev backslash) && Ascii.eqb char dquote
    then negb b else b.
Proof.
  unfold stack_effect.
  destruct (if negb (opt_is prev backslash) && Ascii.eqb char dquote
            then negb b else b); [ reflexivity | ].
  repeat match goal with
         | |- context [if ?x then _ else _] => destruct x
         end; reflexivity.
Qed.

(** X11. The scan ends inside a string exactly when the body has an odd
    number of quotes that do not follow a backslash. *)
Theorem scan_in_string_parity :
  forall (body : string) (self : Fixer),
    _is_in_string (scanned body self)
    = Nat.odd (unescaped_quotes body (String.length body)).
Proof.
  intros body self. unfold scanned, scan, for_range.
  destruct (for_each_seq
              (fun i self' =>
                 _is_in_string self' = Nat.odd (unescaped_quotes body i))
              (scan_char body) (String.length body) 0%nat
              (snd (_reset self)) eq_refl)
    as [_ H]; [ | exact H ].
  intros i self' Hi Hinv.
  destruct (scan_char_observe body (Z.of_nat i) self') as (c & Hc & Ho & Hv).
  { unfold PyStr.len. lia. }
  split; [ exact Ho | ].
  unfold unescaped_quotes. rewrite seq_S, filter_app, length_app.
  simpl filter. unfold toggles_at. rewrite Hc. simpl opt_is.
  fold (unescaped_quotes body i).
  assert (_is_in_string (snd (scan_char body (Z.of_nat i) self'))
          = snd (fst (fst (observe (snd (scan_char body (Z.of_nat i) self'))))))
    as -> by reflexivity.
  rewrite Hv. destruct (in_whitespace c) eqn:W.
  - assert (Ascii.eqb c dquote = false) as ->.
    { apply Ascii.eqb_neq. intros ->. discriminate W. }
    rewrite andb_false_r. simpl. rewrite Nat.add_0_r. exact Hinv.
  - unfold observe. rewrite stack_effect_flag.
    destruct (negb _ && Ascii.eqb c dquote); simpl List.length.
    + rewrite Nat.add_1_r, Nat.odd_succ, <- Nat.negb_odd, Hinv. reflexivity.
    + rewrite Nat.add_0_r. exact Hinv.
Qed.

(** ** Texts, continued *)

Lemma prefix_split p s :
  String.prefix p s = true -> exists r, s = p ++ r.
Proof.
  revert s. induction p as [ | a p IH]; intros [ | b s] H; simpl in *;
    try discriminate; try (eexists; reflexivity).
  destruct (Ascii.ascii_dec a b) as [-> | ]; [ | discriminate ].
  destruct (IH s H) as [r ->]. exists r. reflexivity.
Qed.

Lemma prefix_append p r : String.prefix p (p ++ r) = true.
Proof.
  induction p as [ | a p IH]; simpl; [ destruct r; reflexivity | ].
  destruct (Ascii.ascii_dec a a); [ exact IH | contradiction ].
Qed.

Lemma chop_newline_split s w :
  chop_newline s = Some w -> s = w ++ String LF EmptyString.
Proof.
  revert w. induction s as [ | c r IH]; intros w; simpl; [ discriminate | ].
  destruct r as [ | d r'].
  - destruct (Ascii.eqb_spec c LF) as [-> | ]; [ | discriminate ].
    intros H. injection H as <-. reflexivity.
  - destruct (chop_newline (String d r')) as [r'' | ]; [ | discriminate ].
    intros H. injection H as <-. simpl. f_equal. now apply IH.
Qed.

Lemma match_dollar_prefix r s g :
  match_dollar r s = Some g ->
  fullmatch r g = true /\ exists rest, s = g ++ rest.
Proof.
  unfold match_dollar. destruct (fullmatch r s) eqn:F.
  - intros H. injection H as <-. split; [ exact F | ].
    exists EmptyString. now rewrite append_empty_r.
  - destruct (chop_newline s) as [w | ] eqn:C; [ | discriminate ].
    destruct (fullmatch r w) eqn:F'; [ | discriminate ].
    intros H. injection H as <-. split; [ exact F' | ].
    eexists. now apply chop_newline_split.
Qed.

Lemma append_nonempty_r a b : b <> EmptyString -> a ++ b <> EmptyString.
Proof. destruct a; simpl; [ auto | discriminate ]. Qed.

Lemma last_char_nonempty c r : exists a, last_char (String c r) = Some a.
Proof.
  revert c. induction r as [ | d r IH]; intros c; [ exists c; reflexivity | ].
  destruct (IH d) as [a Ha]. exists a. exact Ha.
Qed.

Lemma rstrip_empty s :
  PyStr.rstrip "," s = EmptyString <-> all_chars (Ascii.eqb ","%char) s = true.
Proof.
  induction s as [ | a r IH]; cbn [PyStr.rstrip all_chars]; [ tauto | ].
  destruct (PyStr.rstrip "," r) as [ | b r'] eqn:E.
  - rewrite (Ascii.eqb_sym "," a).
    destruct (Ascii.eqb a ","); cbn [andb]; [ tauto | ].
    split; discriminate.
  - split; [ discriminate | ]. intros H. apply andb_prop in H.
    destruct H as [_ H]. apply IH in H. discriminate H.
Qed.

(** ** The quick fix returns *)

Lemma first_char body c r :
  body = String c r -> PyStr.index 0 body = Some c.
Proof. intros ->. reflexivity. Qed.

Lemma maybe_literal_returns c r self :
  exists o, _maybe_literal (String c r) self = (Return o, self)
            /\ forall lit, o = Some lit ->
                 In lit ["true"; "false"; "null"]
                 /\ PyStr.startswith (String c r) lit = true.
Proof.
  unfold _maybe_literal, getitem.
  rewrite (first_char _ c r eq_refl), bind_unfold. unfold ret at 1.
  destruct (negb (PyStr.mem c "tfn")).
  - eexists. split; [ reflexivity | discriminate ].
  - eexists. split; [ reflexivity | ]. intros lit H.
    apply find_some in H. exact H.
Qed.

Lemma pad_string_returns c r self :
  exists o, _pad_string (String c r) self = (Return o, self).
Proof.
  unfold _pad_string, getitem. rewrite index_last.
  destruct (last_char_nonempty c r) as [a ->].
  rewrite bind_unfold. unfold ret at 1.
  destruct (_ || _); eexists; reflexivity.
Qed.

Lemma quick_fix_returns c r self :
  exists o, _quick_fix (String c r) self = (Return o, self).
Proof.
  unfold _quick_fix, getitem.
  rewrite (first_char _ c r eq_refl), bind_unfold. unfold ret at 1.
  destruct (maybe_literal_returns c r self) as (o1 & H1 & _).
  destruct (pad_string_returns c r self) as (o2 & H2).
  destruct (_complementary_pairs c); [ destruct (_ =? 1) | ];
    try (eexists; reflexivity);
    destruct (negb (Ascii.eqb c dquote)); eauto.
Qed.

(** ** The padder returns, except on the empty text *)

Lemma strip_text tmp self :
  exists self',
    strip_trailing_separators tmp self
    = (Return (if _is_in_string self then tmp else PyStr.rstrip "," tmp),
       self').
Proof.
  unfold strip_trailing_separators. rewrite bind_unfold. unfold read at 1.
  destruct (_is_in_string self); cbn [negb].
  - eexists. reflexivity.
  - destruct (pop_commas_loop (S (List.length (_token_stack self))) self)
      as (self' & popped & Hw & _); [ lia | ].
    exists self'. rewrite bind_unfold. unfold pop_trailing_commas.
    rewrite bind_unfold. unfold read at 1. rewrite Hw. reflexivity.
Qed.

Lemma literal_match_nonempty tmp g :
  match_dollar literal_pattern tmp = Some g -> exists c r, g = String c r.
Proof.
  intros H. apply match_dollar_prefix in H. destruct H as [F _].
  destruct g as [ | c r]; [ discriminate F | eauto ].
Qed.

Lemma pad_literal_returns tmp self :
  exists t, _pad_literal tmp self = (Return t, self)
            /\ (tmp = EmptyString <-> t = EmptyString).
Proof.
  unfold _pad_literal. rewrite bind_unfold. unfold read at 1.
  destruct (_is_in_string self); [ eexists; split; [ reflexivity | tauto ] | ].
  destruct (match_dollar literal_pattern tmp) as [g | ] eqn:E;
    [ | eexists; split; [ reflexivity | tauto ] ].
  destruct (literal_match_nonempty tmp g E) as (c & r & ->).
  destruct (maybe_literal_returns c r self) as (o & Ho & Hlit).
  rewrite bind_unfold, Ho.
  destruct o as [lit | ]; [ | eexists; split; [ reflexivity | tauto ] ].
  eexists. split; [ reflexivity | ].
  destruct (Hlit lit eq_refl) as [Hin _].
  split.
  - intros ->. discriminate E.
  - intros H. exfalso. revert H. apply append_nonempty_r.
    simpl in Hin. destruct Hin as [<- | [<- | [<- | []]]]; discriminate.
Qed.

Lemma pad_object_empty self :
  _pad_object EmptyString self = (Raise IndexError, self).
Proof. reflexivity. Qed.

Lemma pad_object_returns c r self :
  exists t self',
    _pad_object (String c r) self = (Return t, self')
    /\ exists padding, In padding object_paddings /\ t = String c r ++ padding.
Proof.
  destruct (last_char_nonempty c r) as [a Ha].
  set (tmp := String c r) in *.
  unfold _pad_object, _object_needs_padding, getitem.
  rewrite index_last, Ha.
  unfold bind at 1. unfold bind at 1. unfold ret at 1, bind at 1.
  unfold read at 1, bind at 1. unfold read at 1, bind at 1.
  unfold read at 1, ret at 1.
  destruct (negb _ && _); cbn [negb].
  2:{ exists tmp, self. split; [ reflexivity | ].
      exists EmptyString. split; [ left; reflexivity | ].
      now rewrite append_empty_r. }
  unfold bind at 1, read at 1.
  destruct (match_dollar object_pattern _).
  { exists tmp, self. split; [ reflexivity | ].
    exists EmptyString. split; [ left; reflexivity | ].
    now rewrite append_empty_r. }
  unfold bind at 1, read at 1. unfold bind at 1, _last_token at 1, read at 1.
  rewrite bind_unfold.
  destruct (pop_top_quote self) as [Ho _]. cbv zeta in Ho.
  match type of Ho with fst (?m self) = _ => destruct (m self) as [o t] end.
  simpl in Ho. subst o. unfold ret at 1.
  eexists _, t. split; [ reflexivity | ].
  destruct (_is_in_string self).
  - assert (PyStr.endswith_char (tmp ++ PyStr.of_char dquote) ":" = false)
      as ->.
    { unfold PyStr.endswith_char. rewrite index_last.
      clear. induction tmp as [ | x [ | y tmp'] IH]; try reflexivity.
      exact IH. }
    cbn [negb]. exists (String dquote ":null"). split.
    + right. right. right. left. reflexivity.
    + unfold PyStr.of_char, _missing_value. rewrite !append_assoc.
      reflexivity.
  - destruct (PyStr.endswith_char tmp ":"); cbn [negb].
    + exists "null". split; [ right; left; reflexivity | reflexivity ].
    + exists ":null". split; [ right; right; left; reflexivity | ].
      unfold _missing_value. rewrite append_assoc. reflexivity.
Qed.

(** X12. [_pad_object] only appends, and what it appends is one of four
    texts: nothing, [null], a colon and [null], or a closing quote, a
    colon and [null]; on the empty text it raises [IndexError]. *)
Theorem pad_object_appends :
  forall (tmp : string) (self : Fixer),
    (tmp = EmptyString /\ fst (_pad_object tmp self) = Raise IndexError)
    \/ (tmp <> EmptyString
        /\ exists padding,
             In padding object_paddings
             /\ fst (_pad_object tmp self) = Return (tmp ++ padding)).
Proof.
  intros [ | c r] self.
  - left. split; reflexivity.
  - right. split; [ discriminate | ].
    destruct (pad_object_returns c r self) as (t & self' & H & p & Hp & ->).
    exists p. rewrite H. auto.
Qed.

Lemma pad_decompose tmp self :
  exists self1 t2,
    _pad_literal (if _is_in_string self then tmp else PyStr.rstrip "," tmp)
      self1 = (Return t2, self1)
    /\ ((if _is_in_string self then tmp else PyStr.rstrip "," tmp)
        = EmptyString <-> t2 = EmptyString)
    /\ ((t2 = EmptyString /\ fst (_pad tmp self) = Raise IndexError)
        \/ (t2 <> EmptyString
            /\ exists padding self2,
                 In padding object_paddings
                 /\ fst (_pad tmp self)
                    = Return (t2 ++ padding
                              ++ closers_of (_token_stack self2)))).
Proof.
  destruct (strip_text tmp self) as [self1 Hs].
  destruct (pad_literal_returns
              (if _is_in_string self then tmp else PyStr.rstrip "," tmp)
              self1) as (t2 & Hl & Hiff).
  exists self1, t2. split; [ exact Hl | ]. split; [ exact Hiff | ].
  unfold _pad. rewrite bind_unfold, Hs, bind_unfold, Hl, bind_unfold.
  destruct t2 as [ | c r].
  - left. split; reflexivity.
  - right. split; [ discriminate | ].
    destruct (pad_object_returns c r self1) as (t & self2 & H & p & Hp & ->).
    rewrite H, pad_stack_closers. exists p, self2. split; [ exact Hp | ].
    simpl fst. now rewrite append_assoc.
Qed.

Lemma fix_or_fail_outcome body self :
  let t1 := if _is_in_string self then body else PyStr.rstrip "," body in
  match fst (_fix_or_fail body self) with
  | Return r => t1 <> EmptyString /\ _is_valid_json r = true
  | Raise IndexError => t1 = EmptyString
  | Raise (RuntimeError _) => t1 <> EmptyString
  | Raise KeyError => False
  end.
Proof.
  cbv zeta. destruct (pad_decompose body self)
    as (self1 & t2 & _ & Hiff & [[-> H] | [Hne (p & self2 & _ & H)]]).
  - unfold _fix_or_fail. rewrite bind_unfold.
    destruct (_pad body self) as [o t]. simpl in H. subst o. simpl.
    tauto.
  - assert ((if _is_in_string self then body else PyStr.rstrip "," body)
            <> EmptyString) as Hne1 by tauto.
    unfold _fix_or_fail. rewrite bind_unfold.
    destruct (_pad body self) as [o t]. simpl in H. subst o.
    destruct (_is_valid_json _) eqn:V; simpl; eauto.
Qed.

Lemma all_chars_index p body k c :
  all_chars p body = true -> PyStr.index k body = Some c -> p c = true.
Proof.
  unfold PyStr.index. destruct (_ && _); [ | discriminate ].
  generalize (Z.to_nat (if k <? 0 then k + PyStr.len body else k)) as n.
  induction body as [ | a r IH]; intros n H G; [ discriminate | ].
  cbn [all_chars] in H. apply andb_prop in H. destruct H as [Ha Hr].
  destruct n as [ | n]; simpl in G.
  - injection G as <-. exact Ha.
  - eauto.
Qed.

Lemma commas_first body :
  commas_only body -> exists r, body = String ","%char r.
Proof.
  intros [Hne H]. destruct body as [ | c r]; [ contradiction | ].
  cbn [all_chars] in H. apply andb_prop in H. destruct H as [H _].
  apply Ascii.eqb_eq in H. subst c. eauto.
Qed.

Lemma comma_first_invalid r : _is_valid_json (String "," r) = false.
Proof.
  unfold _is_valid_json, Json.loads.
  change (Json.skip_ws (String "," r)) with (String ","%char r).
  replace (2 * String.length (String "," r) + 2)%nat
    with (S (2 * String.length r + 3))%nat by (simpl; lia).
  reflexivity.
Qed.

Lemma comma_first_quick_fix r self :
  _quick_fix (String "," r) self = (Return None, self).
Proof. reflexivity. Qed.

Lemma scanned_in_string_not_commas body self :
  _is_in_string (scanned body self) = true -> ~ commas_only body.
Proof.
  intros Hs [_ Hc]. pose proof (scanned_inv body self) as H.
  unfold observe, scan_inv in H. destruct H as (_ & Hq & Hm & _).
  rewrite Hs in Hq. destruct Hq as (k & older & R & _). rewrite R in Hm.
  inversion Hm as [ | ? ? [Hi _] _]; subst. simpl in Hi.
  apply (all_chars_index _ _ _ _ Hc) in Hi. discriminate Hi.
Qed.

Lemma fix_outcome json_string self :
  let '(head, body, tail) := _trim json_string in
  match result json_string self with
  | Return _ => ~ commas_only body
  | Raise IndexError => commas_only body
  | Raise (RuntimeError _) => ~ commas_only body
  | Raise KeyError => False
  end.
Proof.
  unfold result. rewrite fix_unfold.
  destruct (_trim json_string) as [[head body] tail].
  destruct body as [ | c r].
  { simpl. intros [H _]. contradiction. }
  set (body := String c r).
  assert (Hinvalid : commas_only body -> _is_valid_json body = false).
  { intros H. destruct (commas_first _ H) as [r' ->].
    apply comma_first_invalid. }
  assert (Hquick : commas_only body ->
                   _quick_fix body self = (Return None, self)).
  { intros H. destruct (commas_first _ H) as [r' ->]. reflexivity. }
  assert ((PyStr.len body =? 0) = false) as -> by reflexivity.
  cbn [orb]. destruct (_is_valid_json body) eqn:V.
  { simpl. intros H. apply Hinvalid in H. congruence. }
  rewrite bind_unfold.
  destruct (quick_fix_returns c r self) as [o Ho]. fold body in Ho.
  rewrite Ho. destruct o as [fixed | ].
  { simpl. intros H. apply Hquick in H. congruence. }
  rewrite bind_unfold.
  change (_reset self) with (Return tt, snd (_reset self)). cbv iota beta.
  rewrite bind_unfold.
  pose proof (scan_returns body (snd (_reset self))) as Hscan.
  assert (snd (scan body (snd (_reset self))) = scanned body self) as Hst
    by reflexivity.
  destruct (scan body (snd (_reset self))) as [o st]. simpl in Hscan, Hst.
  subst o st. rewrite bind_unfold.
  pose proof (fix_or_fail_outcome body (scanned body self)) as H.
  cbv zeta in H.
  assert (Hcommas :
    (if _is_in_string (scanned body self) then body
     else PyStr.rstrip "," body) = EmptyString <-> commas_only body).
  { destruct (_is_in_string (scanned body self)) eqn:Hs.
    - split; [ discriminate | ].
      intros Hc. exfalso. eapply scanned_in_string_not_commas; eauto.
    - rewrite rstrip_empty. unfold commas_only. split; [ | tauto ].
      intros Hc. split; [ discriminate | exact Hc ]. }
  destruct (_fix_or_fail body (scanned body self)) as [[fixed | e] t];
    simpl in H |- *.
  - tauto.
  - destruct e; tauto.
Qed.

(** X13. [fix] raises [IndexError] exactly when the trimmed body is not
    empty and holds commas only. *)
Theorem fix_index_error_iff_commas :
  forall (json_string : string) (self : Fixer),
    result json_string self = Raise IndexError
    <-> commas_only (snd (fst (_trim json_string))).
Proof.
  intros s self. pose proof (fix_outcome s self) as H.
  destruct (_trim s) as [[head body] tail]. simpl.
  destruct (result s self) as [r | [msg | | ]]; split; intros G;
    try discriminate G; try reflexivity; tauto.
Qed.

Lemma fix_index_error_iff_commas_witness :
  commas_only (snd (fst (_trim ",,,")))
  /\ result ",,," (new_Fixer []) = Raise IndexError.
Proof.
  assert (H : commas_only (snd (fst (_trim ",,,"))))
    by (split; [ discriminate | reflexivity ]).
  refine (conj H _).
  exact (proj2 (fix_index_error_iff_commas ",,," (new_Fixer [])) H).
Defined.

(** X14. [fix] never raises [KeyError]: neither the scanner nor the
    padder pops the token stack when it is empty. *)
Theorem fix_never_raises_key_error :
  forall (json_string : string) (self : Fixer),
    result json_string self <> Raise KeyError.
Proof.
  intros s self. pose proof (fix_outcome s self) as H.
  destruct (_trim s) as [[head body] tail].
  destruct (result s self) as [r | [msg | | ]];
    try discriminate; contradiction.
Qed.

(** ** The literal completion of the padder *)

Lemma match_dollar_cases r s g :
  match_dollar r s = Some g ->
  fullmatch r g = true /\ (s = g \/ s = g ++ String LF EmptyString).
Proof.
  unfold match_dollar. destruct (fullmatch r s) eqn:F.
  - intros H. injection H as <-. auto.
  - destruct (chop_newline s) as [w | ] eqn:C; [ | discriminate ].
    destruct (fullmatch r w) eqn:F'; [ | discriminate ].
    intros H. injection H as <-. split; [ exact F' | right ].
    now apply chop_newline_split.
Qed.

Lemma fullmatch_void s : fullmatch Void s = false.
Proof. induction s; simpl; auto. Qed.

Lemma fullmatch_eps s : fullmatch Eps s = true -> s = EmptyString.
Proof.
  destruct s as [ | c r]; [ reflexivity | ]. simpl.
  rewrite fullmatch_void. discriminate.
Qed.

Lemma literal_is_whole lit x :
  In lit ["true"; "false"; "null"] ->
  fullmatch literal_pattern (lit ++ x) = true -> x = EmptyString.
Proof.
  intros [<- | [<- | [<- | []]]] H; apply fullmatch_eps; exact H.
Qed.

(** X15. The literal completion of the padder never completes a truncated
    literal: it returns the text it is given, except for a full literal
    followed by a line feed, which it replaces by the first letter of the
    literal followed by the literal. *)
Theorem pad_literal_never_completes :
  forall (tmp : string) (self : Fixer),
    fst (_pad_literal tmp self) = Return tmp
    \/ exists lit,
         In lit ["true"; "false"; "null"]
         /\ tmp = lit ++ String LF EmptyString
         /\ fst (_pad_literal tmp self) = Return (PyStr.take 1 lit ++ lit).
Proof.
  intros tmp self.
  remember (fst (_pad_literal tmp self)) as res eqn:Hres.
  unfold _pad_literal in Hres. rewrite bind_unfold in Hres.
  unfold read at 1 in Hres.
  destruct (_is_in_string self); [ left; exact Hres | ].
  destruct (match_dollar literal_pattern tmp) as [g | ] eqn:E;
    [ | left; exact Hres ].
  destruct (literal_match_nonempty tmp g E) as (c & r & ->).
  destruct (maybe_literal_returns c r self) as (o & Ho & Hlit).
  rewrite bind_unfold, Ho in Hres.
  destruct o as [lit | ]; [ | left; exact Hres ].
  destruct (Hlit lit eq_refl) as [Hin Hpre].
  apply prefix_split in Hpre. destruct Hpre as [x Hx].
  apply match_dollar_cases in E. destruct E as [F Hs].
  rewrite Hx in F. rewrite (literal_is_whole lit x Hin F) in Hx.
  rewrite append_empty_r in Hx. rewrite Hx in *. clear Hx Hlit Ho F.
  destruct Hs as [-> | ->].
  - left. rewrite Hres. simpl in Hin.
    destruct Hin as [<- | [<- | [<- | []]]]; reflexivity.
  - right. exists lit. split; [ exact Hin | ]. split; [ reflexivity | ].
    rewrite Hres. simpl in Hin.
    destruct Hin as [<- | [<- | [<- | []]]]; reflexivity.
Qed.

Lemma literal_prefix_quick_fix lit y self :
  In lit ["true"; "false"; "null"] ->
  fst (_quick_fix (lit ++ y) self) = Return (Some lit).
Proof. intros [<- | [<- | [<- | []]]]; destruct y; reflexivity. Qed.

Lemma pad_literal_identity body self0 t1 self :
  fst (_quick_fix body self0) = Return None ->
  (exists rest, body = t1 ++ rest) ->
  _pad_literal t1 self = (Return t1, self).
Proof.
  intros Hq [rest Hb]. unfold _pad_literal. rewrite bind_unfold.
  unfold read at 1. destruct (_is_in_string self); [ reflexivity | ].
  destruct (match_dollar literal_pattern t1) as [g | ] eqn:E;
    [ | reflexivity ].
  destruct (literal_match_nonempty t1 g E) as (c & r & ->).
  destruct (maybe_literal_returns c r self) as (o & Ho & Hlit).
  rewrite bind_unfold, Ho. destruct o as [lit | ]; [ | reflexivity ].
  exfalso. destruct (Hlit lit eq_refl) as [Hin Hpre].
  apply prefix_split in Hpre. destruct Hpre as [x Hx].
  apply match_dollar_prefix in E. destruct E as [_ [rest' Ht]].
  rewrite Ht, Hx, !append_assoc in Hb. rewrite Hb in Hq.
  rewrite (literal_prefix_quick_fix lit _ self0 Hin) in Hq. discriminate Hq.
Qed.

(** X16. On the path through the scanner, [fix] keeps the head, the tail
    and the body up to its trailing commas, and only appends to the body:
    the returned text is the head, the body without its trailing commas,
    an appended suffix, and the tail. *)
Theorem fix_full_scan_only_appends :
  forall (json_string : string) (self : Fixer) (r : string),
    result json_string self = Return r ->
    let '(head, body, tail) := _trim json_string in
    _is_valid_json body = false ->
    fst (_quick_fix body self) = Return None ->
    exists stripped n suffix,
      body = stripped ++ commas n
      /\ r = head ++ stripped ++ suffix ++ tail.
Proof.
  intros s self r. unfold result. rewrite fix_unfold.
  destruct (_trim s) as [[head body] tail].
  intros H V Q. destruct body as [ | c b]; [ discriminate Q | ].
  set (body := String c b) in *.
  assert ((PyStr.len body =? 0) = false) as E0 by reflexivity.
  rewrite E0, V in H. cbn [orb] in H.
  destruct (quick_fix_returns c b self) as [o Ho]. fold body in Ho.
  rewrite bind_unfold, Ho in H. rewrite Ho in Q. simpl in Q.
  injection Q as ->.
  rewrite bind_unfold in H.
  change (_reset self) with (Return tt, snd (_reset self)) in H.
  cbv iota beta in H. rewrite bind_unfold in H.
  pose proof (scan_returns body (snd (_reset self))) as Hscan.
  destruct (scan body (snd (_reset self))) as [o st]. simpl in Hscan.
  subst o. rewrite bind_unfold in H. unfold _fix_or_fail in H.
  rewrite bind_unfold in H.
  destruct (pad_decompose body st) as (self1 & t2 & Hl & _ & Hcase).
  assert (exists n, body
            = (if _is_in_string st then body else PyStr.rstrip "," body)
              ++ commas n) as [n Hn].
  { destruct (_is_in_string st).
    - exists O. now rewrite append_empty_r.
    - apply rstrip_commas. }
  rewrite (pad_literal_identity body self _ self1) in Hl.
  2:{ rewrite Ho. reflexivity. }
  2:{ eexists. exact Hn. }
  injection Hl as <-.
  destruct Hcase as [[_ Hp] | [_ (p & self2 & _ & Hp)]];
    destruct (_pad body st) as [o t]; simpl in Hp; subst o;
    [ discriminate H | ].
  destruct (_is_valid_json _); [ | discriminate H ].
  simpl in H. injection H as <-.
  eexists _, n, (p ++ closers_of (_token_stack self2)).
  split; [ exact Hn | ]. now rewrite !append_assoc.
Qed.

Lemma fix_full_scan_only_appends_witness :
  result (py " {'a':1,,") (new_Fixer []) = Return (py " {'a':1}")
  /\ (let '(head, body, tail) := _trim (py " {'a':1,,") in
      _is_valid_json body = false ->
      fst (_quick_fix body (new_Fixer [])) = Return None ->
      exists stripped n suffix,
        body = stripped ++ commas n
        /\ py " {'a':1}" = head ++ stripped ++ suffix ++ tail).
Proof.
  assert (H : result (py " {'a':1,,") (new_Fixer [])
              = Return (py " {'a':1}")) by (vm_compute; reflexivity).
  refine (conj H _).
  exact (fix_full_scan_only_appends _ _ _ H).
Defined.

(** ** The stack methods *)

Lemma del_first_skip tok newer k older :
  Forall (fun kv => snd kv <> tok) newer ->
  OrderedDict.del_first tok (newer ++ (k, tok) :: older)%list
  = (newer ++ older)%list.
Proof.
  induction 1 as [ | [j v] newer Hv Hn IH]; simpl.
  - now rewrite Ascii.eqb_refl.
  - simpl in Hv. apply Ascii.eqb_neq in Hv. rewrite Hv, IH. reflexivity.
Qed.

Lemma del_first_absent tok N :
  Forall (fun kv => snd kv <> tok) N -> OrderedDict.del_first tok N = N.
Proof.
  induction 1 as [ | [j v] N Hv Hn IH]; simpl; [ reflexivity | ].
  simpl in Hv. apply Ascii.eqb_neq in Hv. rewrite Hv, IH. reflexivity.
Qed.

Lemma pop_token_by_type tok self :
  _pop_token (Some tok) self
  = (Return None, snd (mutate_token_stack (OrderedDict.del_last_of tok) self)).
Proof.
  unfold _pop_token, bind, ret, mutate_token_stack.
  destruct (own_token_stack self); reflexivity.
Qed.

(** X17. [_pop_token(token)] removes the newest entry that holds the
    token and nothing else: the entries before it and after it stay, in
    their order. *)
Theorem pop_token_removes_newest_of_type :
  forall (tok : ascii) (self : Fixer) (older newer : OrderedDict.t) (k : Z),
    _token_stack self = (older ++ (k, tok) :: newer)%list ->
    Forall (fun kv => snd kv <> tok) newer ->
    fst (_pop_token (Some tok) self) = Return None
    /\ _token_stack (snd (_pop_token (Some tok) self))
       = (older ++ newer)%list.
Proof.
  intros tok self older newer k Hd Hn. rewrite pop_token_by_type.
  split; [ reflexivity | ]. simpl snd. rewrite token_stack_mutated, Hd.
  unfold OrderedDict.del_last_of.
  rewrite rev_app_distr. simpl rev. rewrite <- app_assoc. simpl app.
  rewrite del_first_skip by (apply Forall_rev; exact Hn).
  rewrite rev_app_distr, !rev_involutive. reflexivity.
Qed.

Lemma pop_token_removes_newest_of_type_witness :
  _token_stack scanned_open_array
  = ([(0, "{"%char)] ++ (5, "["%char) :: [(9, ","%char)])%list
  /\ Forall (fun kv => snd kv <> "["%char) [(9, ","%char)]
  /\ fst (_pop_token (Some "["%char) scanned_open_array) = Return None
  /\ _token_stack (snd (_pop_token (Some "["%char) scanned_open_array))
     = ([(0, "{"%char)] ++ [(9, ","%char)])%list.
Proof.
  assert (H1 : _token_stack scanned_open_array
               = ([(0, "{"%char)] ++ (5, "["%char) :: [(9, ","%char)])%list)
    by reflexivity.
  assert (H2 : Forall (fun kv : Z * ascii => snd kv <> "["%char)
                 [(9, ","%char)])
    by (repeat constructor; discriminate).
  refine (conj H1 (conj H2 _)).
  exact (pop_token_removes_newest_of_type "["%char scanned_open_array
           [(0, "{"%char)] [(9, ","%char)] 5 H1 H2).
Defined.

(** X18. [_pop_token(token)] leaves the stack as it is when no entry
    holds the token, and does not raise. *)
Theorem pop_token_absent_type :
  forall (tok : ascii) (self : Fixer),
    Forall (fun kv => snd kv <> tok) (_token_stack self) ->
    fst (_pop_token (Some tok) self) = Return None
    /\ _token_stack (snd (_pop_token (Some tok) self)) = _token_stack self.
Proof.
  intros tok self H. rewrite pop_token_by_type.
  split; [ reflexivity | ]. simpl snd. rewrite token_stack_mutated.
  unfold OrderedDict.del_last_of.
  rewrite del_first_absent by (apply Forall_rev; exact H).
  apply rev_involutive.
Qed.

Lemma pop_token_absent_type_witness :
  Forall (fun kv => snd kv <> "["%char) (_token_stack scanned_key_colon)
  /\ fst (_pop_token (Some "["%char) scanned_key_colon) = Return None
  /\ _token_stack (snd (_pop_token (Some "["%char) scanned_key_colon))
     = _token_stack scanned_key_colon.
Proof.
  assert (H : Forall (fun kv : Z * ascii => snd kv <> "["%char)
                (_token_stack scanned_key_colon))
    by (repeat constructor; discriminate).
  refine (conj H _).
  exact (pop_token_absent_type "["%char scanned_key_colon H).
Defined.

(** X19. After [self._token_stack[i] = c] for a position [i] that is not
    yet a key, [_last_token()] returns [c], and [_pop_token()] returns the
    entry and gives back the stack as it was. *)
Theorem push_then_pop :
  forall (self : Fixer) (i : Z) (c : ascii),
    Forall (fun kv => fst kv <> i) (_token_stack self) ->
    let pushed := snd (mutate_token_stack (OrderedDict.set i c) self) in
    fst (_last_token pushed) = Return (Some c)
    /\ fst (_pop_token None pushed) = Return (Some (i, c))
    /\ _token_stack (snd (_pop_token None pushed)) = _token_stack self.
Proof.
  intros self i c H pushed.
  assert (Hd : _token_stack pushed = (_token_stack self ++ [(i, c)])%list).
  { unfold pushed. rewrite token_stack_mutated. now apply set_fresh. }
  split.
  - unfold _last_token, read. simpl fst. unfold OrderedDict.last_value.
    rewrite Hd, rev_app_distr. reflexivity.
  - apply pop_token_last. unfold OrderedDict.popitem.
    rewrite Hd, rev_app_distr. simpl. now rewrite rev_involutive.
Qed.

Lemma push_then_pop_witness :
  Forall (fun kv => fst kv <> 7) (_token_stack scanned_key_colon)
  /\ (let pushed :=
        snd (mutate_token_stack (OrderedDict.set 7 ","%char)
               scanned_key_colon) in
      fst (_last_token pushed) = Return (Some ","%char)
      /\ fst (_pop_token None pushed) = Return (Some (7, ","%char))
      /\ _token_stack (snd (_pop_token None pushed))
         = _token_stack scanned_key_colon).
Proof.
  assert (H : Forall (fun kv : Z * ascii => fst kv <> 7)
                (_token_stack scanned_key_colon))
    by (repeat constructor; discriminate).
  refine (conj H _).
  exact (push_then_pop scanned_key_colon 7 ","%char H).
Defined.

(** ** The oracle and white space around a document *)

Module JsonSpace.
Import Json JsonFacts.

Local Open Scope nat_scope.

(** More fuel does not change a verdict. *)
Lemma more_fuel f :
  (forall s res f', scan_once f s = res -> res <> OutOfFuel -> f <= f' ->
                    scan_once f' s = res)
  /\ (forall s res f', members f s = res -> res <> OutOfFuel -> f <= f' ->
                       members f' s = res)
  /\ (forall s res f', elements f s = res -> res <> OutOfFuel -> f <= f' ->
                       elements f' s = res).
Proof.
  induction f as [ | f (IHs & IHm & IHe)].
  { repeat split; intros s res f' H Hne; subst res; contradiction. }
  repeat split; intros s res [ | f'] H Hne Hle; try lia;
    simpl in H |- *.
  - destruct s as [ | c s1]; [ exact H | ].
    destruct (Ascii.eqb c dquote); [ exact H | ].
    destruct (Ascii.eqb c "{").
    { destruct (skip_ws s1) as [ | d r']; [ exact H | ].
      destruct (Ascii.eqb d "}"); [ exact H | ].
      destruct (Ascii.eqb d dquote); [ | exact H ].
      apply (IHm _ _ _ H Hne). lia. }
    destruct (Ascii.eqb c "[").
    { destruct (skip_ws s1) as [ | d r'].
      - apply (IHe _ _ _ H Hne). lia.
      - destruct (Ascii.eqb d "]"); [ exact H | ].
        apply (IHe _ _ _ H Hne). lia. }
    exact H.
  - destruct (scanstring s) as [r | ]; [ | exact H ].
    destruct (skip_ws r) as [ | c r1]; [ exact H | ].
    destruct (Ascii.eqb c ":"); [ | exact H ].
    destruct (scan_once f (skip_ws r1)) as [r2 | | ] eqn:E.
    + rewrite (IHs _ _ f' E) by (discriminate || lia).
      destruct (skip_ws r2) as [ | d r3]; [ exact H | ].
      destruct (Ascii.eqb d "}"); [ exact H | ].
      destruct (Ascii.eqb d ","); [ | exact H ].
      destruct (skip_ws r3) as [ | q r4]; [ exact H | ].
      destruct (Ascii.eqb q dquote); [ | exact H ].
      apply (IHm _ _ _ H Hne). lia.
    + rewrite (IHs _ _ f' E) by (discriminate || lia). exact H.
    + subst res. contradiction.
  - destruct (scan_once f s) as [r | | ] eqn:E.
    + rewrite (IHs _ _ f' E) by (discriminate || lia).
      destruct (skip_ws r) as [ | d r1]; [ exact H | ].
      destruct (Ascii.eqb d "]"); [ exact H | ].
      destruct (Ascii.eqb d ","); [ | exact H ].
      apply (IHe _ _ _ H Hne). lia.
    + rewrite (IHs _ _ f' E) by (discriminate || lia). exact H.
    + subst res. contradiction.
Qed.

Section Trailing.

(** [t] is the white space that follows a document. *)
Variable t : string.
Hypothesis t_space : all_chars is_ws t = true.

Lemma t_head :
  match t with
  | EmptyString => True
  | String c _ => is_ws c = true
  end.
Proof.
  destruct t as [ | c r]; [ exact I | ].
  simpl in t_space. now apply andb_prop in t_space.
Qed.

Lemma skip_ws_t : skip_ws t = EmptyString.
Proof.
  revert t_space. induction t as [ | c r IH]; simpl; [ reflexivity | ].
  intros H. apply andb_prop in H. destruct H as [-> H]. auto.
Qed.

Lemma skip_ws_ext y d r :
  skip_ws y = String d r -> skip_ws (y ++ t) = String d (r ++ t).
Proof.
  induction y as [ | c y IH]; simpl; [ discriminate | ].
  destruct (is_ws c); [ exact IH | ].
  intros H. injection H as <- <-. reflexivity.
Qed.

Lemma skip_ws_all y :
  skip_ws y = EmptyString -> skip_ws (y ++ t) = EmptyString.
Proof.
  induction y as [ | c y IH]; simpl; [ intros _; apply skip_ws_t | ].
  destruct (is_ws c); [ exact IH | discriminate ].
Qed.

Lemma ws_not_digit c : is_ws c = true -> is_digit c = false.
Proof.
  unfold is_ws. simpl. intros H.
  repeat (apply orb_prop in H; destruct H as [H | H]);
    try (apply Ascii.eqb_eq in H; subst c; reflexivity).
  discriminate H.
Qed.

Lemma ws_not c a : is_ws c = true -> is_ws a = false -> Ascii.eqb c a = false.
Proof.
  intros Hc Ha. apply Ascii.eqb_neq. intros ->. congruence.
Qed.

Lemma skip_digits_t : skip_digits t = t.
Proof.
  pose proof t_head as H. destruct t as [ | c r]; [ reflexivity | ].
  simpl. now rewrite (ws_not_digit c H).
Qed.

Lemma skip_digits_ext y : skip_digits (y ++ t) = skip_digits y ++ t.
Proof.
  induction y as [ | c y IH]; simpl; [ apply skip_digits_t | ].
  destruct (is_digit c); [ exact IH | reflexivity ].
Qed.

Lemma digits1_ext y :
  digits1 (y ++ t) = option_map (fun r => r ++ t) (digits1 y).
Proof.
  destruct y as [ | c y]; simpl.
  - pose proof t_head as H. destruct t as [ | c r]; [ reflexivity | ].
    simpl. now rewrite (ws_not_digit c H).
  - destruct (is_digit c); [ | reflexivity ].
    simpl. now rewrite skip_digits_ext.
Qed.

Lemma t_first a :
  is_ws a = false ->
  match t with
  | EmptyString => True
  | String c _ => Ascii.eqb c a = false
  end.
Proof.
  intros Ha. pose proof t_head as H. destruct t as [ | c r]; [ exact I | ].
  now apply ws_not.
Qed.

Lemma number_int_ext y :
  number_int (y ++ t) = option_map (fun r => r ++ t) (number_int y).
Proof.
  assert (Ht : forall y,
    match y ++ t with
    | String c r =>
        if Ascii.eqb c "0" then Some r
        else if is_digit c then Some (skip_digits r) else None
    | EmptyString => None
    end
    = option_map (fun r => r ++ t)
        match y with
        | String c r =>
            if Ascii.eqb c "0" then Some r
            else if is_digit c then Some (skip_digits r) else None
        | EmptyString => None
        end).
  { intros [ | c r]; simpl.
    - pose proof t_head as H. pose proof (t_first "0" eq_refl) as H0.
      destruct t as [ | c r]; [ reflexivity | ].
      now rewrite H0, (ws_not_digit c H).
    - destruct (Ascii.eqb c "0"); [ reflexivity | ].
      destruct (is_digit c); [ | reflexivity ].
      simpl. now rewrite skip_digits_ext. }
  unfold number_int. destruct y as [ | c y]; simpl.
  - pose proof (t_first "-" eq_refl) as Hm.
    specialize (Ht EmptyString). simpl in Ht.
    destruct t as [ | c r]; [ reflexivity | ]. rewrite Hm. exact Ht.
  - destruct (Ascii.eqb c "-"); [ apply Ht | apply (Ht (String c y)) ].
Qed.

Lemma number_frac_ext y : number_frac (y ++ t) = number_frac y ++ t.
Proof.
  destruct y as [ | c y]; simpl.
  - pose proof (t_first "." eq_refl) as H.
    destruct t as [ | c r]; [ reflexivity | ]. simpl. now rewrite H.
  - destruct (Ascii.eqb c "."); [ | reflexivity ].
    rewrite digits1_ext. destruct (digits1 y); reflexivity.
Qed.

Lemma number_exp_ext y : number_exp (y ++ t) = number_exp y ++ t.
Proof.
  destruct y as [ | c y]; cbn [append number_exp].
  - pose proof (t_first "e" eq_refl) as H1.
    pose proof (t_first "E" eq_refl) as H2.
    destruct t as [ | c r]; [ reflexivity | ]. simpl. now rewrite H1, H2.
  - destruct (Ascii.eqb c "e" || Ascii.eqb c "E"); [ | reflexivity ].
    assert (match y ++ t with
            | String d r' =>
                if Ascii.eqb d "-" || Ascii.eqb d "+" then r' else y ++ t
            | EmptyString => y ++ t
            end
            = match y with
              | String d r' =>
                  if Ascii.eqb d "-" || Ascii.eqb d "+" then r' else y
              | EmptyString => y
              end ++ t) as ->.
    { destruct y as [ | d y]; cbn [append].
      - pose proof (t_first "-" eq_refl) as H1.
        pose proof (t_first "+" eq_refl) as H2.
        destruct t as [ | a r]; [ reflexivity | ]. now rewrite H1, H2.
      - destruct (Ascii.eqb d "-" || Ascii.eqb d "+"); reflexivity. }
    rewrite digits1_ext. destruct (digits1 _); reflexivity.
Qed.

Lemma match_number_ext y :
  match_number (y ++ t) = option_map (fun r => r ++ t) (match_number y).
Proof.
  unfold match_number. rewrite number_int_ext.
  destruct (number_int y); simpl; [ | reflexivity ].
  now rewrite number_frac_ext, number_exp_ext.
Qed.

Lemma scanstring_ext y r :
  scanstring y = Some r -> scanstring (y ++ t) = Some (r ++ t).
Proof.
  remember (String.length y) as n eqn:Hn. revert y r Hn.
  induction n as [n IH] using lt_wf_ind. intros y r Hn.
  destruct y as [ | c y1]; simpl; [ discriminate | ].
  destruct (Ascii.eqb c dquote).
  { intros H. injection H as <-. reflexivity. }
  destruct (Ascii.eqb c backslash).
  - destruct y1 as [ | e y2]; [ discriminate | ]. simpl.
    destruct (Ascii.eqb e "u").
    + destruct y2 as [ | h1 [ | h2 [ | h3 [ | h4 y3]]]]; try discriminate.
      simpl. destruct (_ && _); [ | discriminate ].
      apply (IH (String.length y3)); simpl in *; lia.
    + destruct (_ || _); [ | discriminate ].
      apply (IH (String.length y2)); simpl in *; lia.
  - destruct (nat_of_ascii c <? 32); [ discriminate | ].
    apply (IH (String.length y1)); simpl in *; lia.
Qed.

Lemma drop_ext n y :
  n <= String.length y -> PyStr.drop n (y ++ t) = PyStr.drop n y ++ t.
Proof.
  revert y. induction n as [ | n IH]; intros [ | c y] H; simpl in *;
    try reflexivity; try lia.
  apply IH. lia.
Qed.

Lemma prefix_length w y :
  String.prefix w y = true -> String.length w <= String.length y.
Proof.
  intros H. apply prefix_split in H. destruct H as [r ->].
  clear. induction w; simpl; lia.
Qed.

Lemma prefix_ext w y :
  all_chars (fun c => negb (is_ws c)) w = true ->
  String.prefix w (y ++ t) = String.prefix w y.
Proof.
  revert y. induction w as [ | a w IH]; intros y Hw.
  - destruct y, t; reflexivity.
  - simpl in Hw. apply andb_prop in Hw. destruct Hw as [Ha Hw].
    apply negb_true_iff in Ha.
    destruct y as [ | b y]; simpl.
    + pose proof (t_first a Ha) as H.
      destruct t as [ | c r]; [ reflexivity | ]. simpl.
      destruct (Ascii.ascii_dec a c) as [-> | ]; [ | reflexivity ].
      rewrite Ascii.eqb_refl in H. discriminate.
    + destruct (Ascii.ascii_dec a b); [ apply IH; exact Hw | reflexivity ].
Qed.

Lemma constant_ext w y :
  all_chars (fun c => negb (is_ws c)) w = true ->
  constant w (y ++ t)
  = match constant w y with
    | Accept r => Accept (r ++ t)
    | other => other
    end.
Proof.
  intros Hw. unfold constant, PyStr.startswith. rewrite (prefix_ext w y Hw).
  destruct (String.prefix w y) eqn:E; [ | reflexivity ].
  rewrite drop_ext; [ reflexivity | now apply prefix_length ].
Qed.

Lemma scan_atom_ext c y :
  scan_atom c (String c y ++ t)
  = match scan_atom c (String c y) with
    | Accept r => Accept (r ++ t)
    | other => other
    end.
Proof.
  unfold scan_atom, PyStr.startswith.
  rewrite !prefix_ext by reflexivity.
  rewrite match_number_ext.
  rewrite !constant_ext by reflexivity.
  repeat match goal with
         | |- context [if ?b then _ else _] => destruct b
         | |- context [match match_number ?x with _ => _ end] =>
             destruct (match_number x)
         | |- context [match constant ?w ?x with _ => _ end] =>
             destruct (constant w x)
         end; reflexivity.
Qed.

Lemma scan_once_empty f r : scan_once f EmptyString <> Accept r.
Proof. destruct f; discriminate. Qed.

Lemma elements_empty f r : elements f EmptyString <> Accept r.
Proof. destruct f as [ | [ | f]]; discriminate. Qed.

Lemma skip_ws_append y :
  skip_ws y <> EmptyString -> skip_ws (y ++ t) = skip_ws y ++ t.
Proof.
  destruct (skip_ws y) as [ | d r] eqn:E; [ contradiction | ].
  intros _. now apply skip_ws_ext.
Qed.

Lemma scan_ext f :
  (forall y r, scan_once f y = Accept r ->
               scan_once f (y ++ t) = Accept (r ++ t))
  /\ (forall y r, members f y = Accept r ->
                  members f (y ++ t) = Accept (r ++ t))
  /\ (forall y r, elements f y = Accept r ->
                  elements f (y ++ t) = Accept (r ++ t)).
Proof.
  induction f as [ | f (IHs & IHm & IHe)].
  { repeat split; intros y r H; discriminate H. }
  assert (IHs' : forall x r, scan_once f (skip_ws x) = Accept r ->
                   scan_once f (skip_ws (x ++ t)) = Accept (r ++ t)).
  { intros x r H. rewrite skip_ws_append; [ now apply IHs | ].
    intros E. rewrite E in H. exact (scan_once_empty _ _ H). }
  assert (IHe' : forall x r, elements f (skip_ws x) = Accept r ->
                   elements f (skip_ws (x ++ t)) = Accept (r ++ t)).
  { intros x r H. rewrite skip_ws_append; [ now apply IHe | ].
    intros E. rewrite E in H. exact (elements_empty _ _ H). }
  repeat split; intros y r H.
  - destruct y as [ | c y1]; [ discriminate H | ].
    cbn [append]. simpl in H |- *.
    destruct (Ascii.eqb c dquote).
    { destruct (scanstring y1) as [r' | ] eqn:E; [ | discriminate H ].
      injection H as <-. now rewrite (scanstring_ext y1 r' E). }
    destruct (Ascii.eqb c "{").
    { destruct (skip_ws y1) as [ | d r'] eqn:E; [ discriminate H | ].
      rewrite (skip_ws_ext y1 d r' E).
      destruct (Ascii.eqb d "}"); [ injection H as <-; reflexivity | ].
      destruct (Ascii.eqb d dquote); [ | discriminate H ].
      now apply IHm. }
    destruct (Ascii.eqb c "[").
    { destruct (skip_ws y1) as [ | d r'] eqn:E.
      - exfalso. exact (elements_empty _ _ H).
      - rewrite (skip_ws_ext y1 d r' E).
        destruct (Ascii.eqb d "]"); [ injection H as <-; reflexivity | ].
        apply (IHe (String d r')). exact H. }
    change (String c (y1 ++ t)) with (String c y1 ++ t).
    rewrite scan_atom_ext, H. reflexivity.
  - simpl in H |- *.
    destruct (scanstring y) as [r0 | ] eqn:E0; [ | discriminate H ].
    rewrite (scanstring_ext y r0 E0).
    destruct (skip_ws r0) as [ | c r1] eqn:E1; [ discriminate H | ].
    rewrite (skip_ws_ext r0 c r1 E1).
    destruct (Ascii.eqb c ":"); [ | discriminate H ].
    destruct (scan_once f (skip_ws r1)) as [r2 | | ] eqn:E2;
      try discriminate H.
    rewrite (IHs' r1 r2 E2).
    destruct (skip_ws r2) as [ | d r3] eqn:E3; [ discriminate H | ].
    rewrite (skip_ws_ext r2 d r3 E3).
    destruct (Ascii.eqb d "}"); [ injection H as <-; reflexivity | ].
    destruct (Ascii.eqb d ","); [ | discriminate H ].
    destruct (skip_ws r3) as [ | q r4] eqn:E4; [ discriminate H | ].
    rewrite (skip_ws_ext r3 q r4 E4).
    destruct (Ascii.eqb q dquote); [ | discriminate H ].
    now apply IHm.
  - simpl in H |- *.
    destruct (scan_once f y) as [r0 | | ] eqn:E0; try discriminate H.
    rewrite (IHs y r0 E0).
    destruct (skip_ws r0) as [ | d r1] eqn:E1; [ discriminate H | ].
    rewrite (skip_ws_ext r0 d r1 E1).
    destruct (Ascii.eqb d "]"); [ injection H as <-; reflexivity | ].
    destruct (Ascii.eqb d ","); [ | discriminate H ].
    now apply IHe'.
Qed.

End Trailing.

Lemma skip_ws_leading h x :
  all_chars is_ws h = true -> skip_ws (h ++ x) = skip_ws x.
Proof.
  induction h as [ | c h IH]; simpl; [ reflexivity | ].
  intros H. apply andb_prop in H. destruct H as [-> H]. auto.
Qed.

Lemma append_length a b :
  String.length (a ++ b) = String.length a + String.length b.
Proof. induction a; simpl; lia. Qed.

(** White space before and after a document that [loads] accepts gives
    a document that [loads] accepts. *)
Lemma loads_spaces h x t :
  all_chars is_ws h = true -> all_chars is_ws t = true ->
  (exists r, loads x = Accept r) ->
  exists r, loads (h ++ x ++ t) = Accept r.
Proof.
  intros Hh Ht [r0 H]. unfold loads in *.
  destruct (scan_once _ (skip_ws x)) as [r | | ] eqn:E; try discriminate H.
  destruct (skip_ws r) eqn:Er; [ | discriminate H ].
  rewrite (skip_ws_leading h _ Hh).
  assert (skip_ws x <> EmptyString) as Hx.
  { intros Ex. rewrite Ex in E. exact (scan_once_empty _ _ E). }
  rewrite (skip_ws_append t x Hx).
  apply (proj1 (scan_ext t Ht _)) in E.
  apply (proj1 (more_fuel _)) with (f' := 2 * String.length (h ++ x ++ t) + 2)
    in E; [ | discriminate | rewrite !append_length; lia ].
  rewrite E, (skip_ws_all t Ht r Er). eauto.
Qed.

End JsonSpace.

Lemma in_whitespace_is_ws c : in_whitespace c = Json.is_ws c.
Proof.
  unfold in_whitespace, Json.is_ws, whitespace. simpl.
  destruct (Ascii.eqb c " "), (Ascii.eqb c TAB), (Ascii.eqb c CR),
    (Ascii.eqb c LF); reflexivity.
Qed.

Lemma valid_between_spaces h x t :
  all_chars in_whitespace h = true -> all_chars in_whitespace t = true ->
  _is_valid_json x = true -> _is_valid_json (h ++ x ++ t) = true.
Proof.
  intros Hh Ht V. unfold _is_valid_json in *.
  destruct (JsonSpace.loads_spaces h x t) as [r ->].
  - rewrite <- Hh. apply all_chars_ext. intros c.
    symmetry. apply in_whitespace_is_ws.
  - rewrite <- Ht. apply all_chars_ext. intros c.
    symmetry. apply in_whitespace_is_ws.
  - destruct (Json.loads x); try discriminate V. eauto.
  - reflexivity.
Qed.

(** X20. White space around a text that parses as valid JSON gives a text
    that parses as valid JSON. *)
Theorem valid_json_ignores_outer_space :
  forall h x t : string,
    all_chars in_whitespace h = true ->
    all_chars in_whitespace t = true ->
    _is_valid_json x = true ->
    _is_valid_json (h ++ x ++ t) = true.
Proof. exact valid_between_spaces. Qed.

Lemma valid_json_ignores_outer_space_witness :
  all_chars in_whitespace (String " " (String TAB EmptyString)) = true
  /\ all_chars in_whitespace (String LF EmptyString) = true
  /\ _is_valid_json (py "{'a':[1,2]}") = true
  /\ _is_valid_json (String " " (String TAB EmptyString)
                     ++ py "{'a':[1,2]}" ++ String LF EmptyString) = true.
Proof.
  assert (H1 : all_chars in_whitespace (String " " (String TAB EmptyString))
               = true) by reflexivity.
  assert (H2 : all_chars in_whitespace (String LF EmptyString) = true)
    by reflexivity.
  assert (H3 : _is_valid_json (py "{'a':[1,2]}") = true) by reflexivity.
  refine (conj H1 (conj H2 (conj H3 _))).
  exact (valid_json_ignores_outer_space _ _ _ H1 H2 H3).
Defined.

(** X21. When the third part of [_trim] is white space only, and the body
    is not empty and does not start with a quote, every text that [fix]
    returns parses as valid JSON. *)
Theorem fix_valid_when_tail_is_space :
  forall (json_string : string) (self : Fixer) (r : string),
    result json_string self = Return r ->
    let '(head, body, tail) := _trim json_string in
    all_chars in_whitespace tail = true ->
    body <> EmptyString ->
    PyStr.index 0 body <> Some dquote ->
    _is_valid_json r = true.
Proof.
  intros s self r H. pose proof (fix_success_cases s self r H) as C.
  pose proof (trim_parts s) as T.
  destruct (_trim s) as [[head body] tail]. intros Ht Hb Hq.
  destruct T as (_ & Hh & _).
  destruct C as [[C _] | [C | [[C _] | (padded & V & ->)]]];
    try contradiction; try assumption.
  now apply valid_between_spaces.
Qed.

Lemma fix_valid_when_tail_is_space_witness :
  result (String " " (py "{'a':[1,2") ++ String LF EmptyString)
    (new_Fixer [])
  = Return (String " " (py "{'a':[1,2]}") ++ String LF EmptyString)
  /\ (let '(head, body, tail) :=
        _trim (String " " (py "{'a':[1,2") ++ String LF EmptyString) in
      all_chars in_whitespace tail = true ->
      body <> EmptyString ->
      PyStr.index 0 body <> Some dquote ->
      _is_valid_json (String " " (py "{'a':[1,2]}") ++ String LF EmptyString)
      = true).
Proof.
  assert (H : result (String " " (py "{'a':[1,2") ++ String LF EmptyString)
                (new_Fixer [])
              = Return (String " " (py "{'a':[1,2]}")
                        ++ String LF EmptyString))
    by (vm_compute; reflexivity).
  refine (conj H _).
  exact (fix_valid_when_tail_is_space _ _ _ H).
Defined.

(** X22. [_quick_fix] raises [IndexError] on the empty text; on any other
    text it returns, and it never changes the object. *)
Theorem quick_fix_total :
  forall (body : string) (self : Fixer),
    (body = EmptyString /\ _quick_fix body self = (Raise IndexError, self))
    \/ (body <> EmptyString
        /\ exists o, _quick_fix body self = (Return o, self)).
Proof.
  intros [ | c r] self.
  - left. split; reflexivity.
  - right. split; [ discriminate | apply quick_fix_returns ].
Qed.

(** X23. A literal that [_maybe_literal] returns is one of the three
    literals and is a prefix of the text: the text is never completed. *)
Theorem maybe_literal_is_prefix :
  forall (s : string) (self : Fixer) (lit : string),
    fst (_maybe_literal s self) = Return (Some lit) ->
    In lit ["true"; "false"; "null"] /\ exists rest, s = lit ++ rest.
Proof.
  intros [ | c r] self lit H; [ discriminate H | ].
  destruct (maybe_literal_returns c r self) as (o & Ho & Hlit).
  rewrite Ho in H. simpl in H. injection H as ->.
  destruct (Hlit lit eq_refl) as [Hin Hpre].
  split; [ exact Hin | now apply prefix_split ].
Qed.

Lemma maybe_literal_is_prefix_witness :
  fst (_maybe_literal "nullable" (new_Fixer [])) = Return (Some "null")
  /\ In "null" ["true"; "false"; "null"]
  /\ exists rest, "nullable" = "null" ++ rest.
Proof.
  assert (H : fst (_maybe_literal "nullable" (new_Fixer []))
              = Return (Some "null")) by reflexivity.
  refine (conj H _).
  exact (maybe_literal_is_prefix "nullable" (new_Fixer []) "null" H).
Defined.
